(** * laundree-sdk: the job correlation engine and the HTTP facade of [src/sdk.js]

    A shallow embedding of the [Sdk] class and of the [UserSdk] operations
    built on it.  The module-level counter [jobId], the promises, the
    [EventEmitter] of every [Sdk] instance, the redux stores and the socket
    traffic live in one [Process] record that every operation threads
    through; the HTTP side runs in a small state-and-error monad over the
    requests that reached the network. *)

From Stdlib Require Import Ascii String.
From stdpp Require Import gmap strings list pretty.

Set Warnings "-register-all".

(** ** JavaScript values

    Strings are byte strings: for ASCII text the bytes, the UTF-16 units
    and the UTF-8 encoding coincide.  Numbers are the integers (the values
    the code handles are counters, lengths and status codes). *)

Inductive JsVal : Type :=
| VUndefined
| VNull
| VBool (b : bool)
| VNum (n : Z)
| VStr (s : string)
| VArr (xs : list JsVal)
| VObj (fields : list (string * JsVal)).

(** What a rejected promise carries. *)
Inductive Exn : Type :=
| Error (message : string)
| TypeError (message : string)
| Thrown (v : JsVal).

(** [!v] is [negb (truthy v)]. *)
Definition truthy (v : JsVal) : bool :=
  match v with
  | VUndefined | VNull => false
  | VBool b => b
  | VNum n => negb (n =? 0)%Z
  | VStr s => negb (String.eqb s "")
  | VArr _ | VObj _ => true
  end.

Fixpoint assoc (k : string) (fs : list (string * JsVal)) : JsVal :=
  match fs with
  | [] => VUndefined
  | (k', v) :: fs' => if String.eqb k k' then v else assoc k fs'
  end.

(** [v.name] on a value that is neither null nor undefined. *)
Definition get_prop (name : string) (v : JsVal) : JsVal :=
  match v with
  | VObj fs => assoc name fs
  | _ => VUndefined
  end.

(** ** Promises *)

Inductive PromiseState : Type :=
| Pending
| Fulfilled (v : JsVal)
| Rejected (e : Exn).

Definition PromiseId := nat.

(** ** The objects of a process *)

(** A listener of [jobEventEmitter]: the only ones ever registered are the
    [resolve] functions of the promises [emit] creates, added with [once]. *)
Inductive Listener : Type :=
| OnceResolve (p : PromiseId).

#[global] Instance Listener_eq_dec : EqDecision Listener.
Proof. solve_decision. Defined.

Definition target (l : Listener) : PromiseId :=
  match l with OnceResolve p => p end.

Inductive AuthenticatorStrategy : Type :=
| bearer (token : string)
| basic (username password : string)
| unauthenticated.

Inductive Outcome (A : Type) : Type :=
| Resolves (a : A)
| Rejects (e : Exn).
Arguments Resolves {A} a.
Arguments Rejects {A} e.

(** [authenticator k] is what the [k]-th call of the injected credential
    provider settles to (the provider may rotate its answer). *)
Definition Authenticator := nat -> Outcome AuthenticatorStrategy.

Definition SocketId := nat.

Record Sdk : Type := {
  baseUrl : string;
  socket : option SocketId;                       (* undefined before setupRedux *)
  jobEventEmitter : gmap string (list Listener);
  authenticator : Authenticator
}.

(** Modelled from the spec: the [State] type of [./redux] is not part of
    the sources; the engine reads its "current job identifier" field, a
    number or null/absent, and the rest of the state is the reply data. *)
Record State : Type := {
  job : option Z;
  data : JsVal
}.

(** A redux store: the latest state and the subscribed callbacks.  The
    callback [setupRedux] registers closes over [this], an [Sdk]. *)
Record Store : Type := {
  getState : State;
  subscribers : list nat
}.

(** What the process did, in order: a listener added with [once], a
    message handed to a socket, a listener called by the emitter. *)
Inductive Event : Type :=
| Registered (sdk : nat) (name : string) (p : PromiseId)
| Sent (sock : SocketId) (msg : list JsVal)
| Called (p : PromiseId) (arg : JsVal).

(** The counter [jobId] is the module-level variable, one per process.  It
    is a JavaScript number holding an integer: it starts at 1 and [jobId++]
    moves it up by one until it reaches 2^53, where it stays. *)
Record Process : Type := {
  jobId : Z;                                      (* let jobId = 1 *)
  sdks : list Sdk;
  stores : list Store;
  promises : list PromiseState;
  log : list Event
}.

Definition init : Process :=
  {| jobId := 1%Z; sdks := []; stores := []; promises := []; log := [] |}.

Definition set_jobId (n : Z) (w : Process) : Process :=
  {| jobId := n; sdks := sdks w; stores := stores w;
     promises := promises w; log := log w |}.
Definition set_sdks (f : list Sdk -> list Sdk) (w : Process) : Process :=
  {| jobId := jobId w; sdks := f (sdks w); stores := stores w;
     promises := promises w; log := log w |}.
Definition set_stores (f : list Store -> list Store) (w : Process) : Process :=
  {| jobId := jobId w; sdks := sdks w; stores := f (stores w);
     promises := promises w; log := log w |}.
Definition set_promises (f : list PromiseState -> list PromiseState)
    (w : Process) : Process :=
  {| jobId := jobId w; sdks := sdks w; stores := stores w;
     promises := f (promises w); log := log w |}.
Definition record (e : Event) (w : Process) : Process :=
  {| jobId := jobId w; sdks := sdks w; stores := stores w;
     promises := promises w; log := log w ++ [e] |}.

Definition set_socket (sock : SocketId) (s : Sdk) : Sdk :=
  {| baseUrl := baseUrl s; socket := Some sock;
     jobEventEmitter := jobEventEmitter s; authenticator := authenticator s |}.
Definition set_emitter (f : gmap string (list Listener) -> gmap string (list Listener))
    (s : Sdk) : Sdk :=
  {| baseUrl := baseUrl s; socket := socket s;
     jobEventEmitter := f (jobEventEmitter s); authenticator := authenticator s |}.

(** ** Promise primitives *)

(** [new Promise(...)]: a fresh pending promise. *)
Definition new_promise (w : Process) : PromiseId * Process :=
  (length (promises w), set_promises (fun ps => ps ++ [Pending]) w).

(** Settling is first-come: a promise that is no longer pending ignores
    later [resolve] and [reject] calls. *)
Definition settle (p : PromiseId) (st : PromiseState) (w : Process) : Process :=
  match promises w !! p with
  | Some Pending => set_promises (fun ps => <[p := st]> ps) w
  | _ => w
  end.

Definition resolve (p : PromiseId) (v : JsVal) : Process -> Process :=
  settle p (Fulfilled v).
Definition reject (p : PromiseId) (e : Exn) : Process -> Process :=
  settle p (Rejected e).

(** ** EventEmitter: [once] and [emit] *)

Definition listeners (name : string) (ee : gmap string (list Listener))
    : list Listener :=
  default [] (ee !! name).

Definition ee_once (name : string) (l : Listener)
    (ee : gmap string (list Listener)) : gmap string (list Listener) :=
  <[name := listeners name ee ++ [l]]> ee.

(** A listener called with [args]: [resolve] takes its first argument. *)
Definition call_listener (args : list JsVal) (w : Process) (l : Listener)
    : Process :=
  match l with
  | OnceResolve p =>
      resolve p (hd VUndefined args) (record (Called p (hd VUndefined args)) w)
  end.

(** [this.jobEventEmitter.once(name, resolve)] *)
Definition once (this : nat) (name : string) (p : PromiseId) (w : Process)
    : Process :=
  record (Registered this name p)
    (set_sdks (alter (set_emitter (ee_once name (OnceResolve p))) this) w).

(** [this.jobEventEmitter.emit(name, ...args)]: every listener of [name]
    was added with [once], so each is removed and then called, in the order
    of registration; the calls do not touch the emitter. *)
Definition jobEventEmitter_emit (this : nat) (name : string)
    (args : list JsVal) (w : Process) : option Process :=
  s ← sdks w !! this;
  let ls := listeners name (jobEventEmitter s) in
  let w1 := set_sdks (alter (set_emitter (delete name)) this) w in
  Some (foldl (call_listener args) w1 ls).

(** [this.socket.emit(...newArgs)] on a socket that exists. *)
Definition socket_emit (sock : SocketId) (msg : list JsVal) (w : Process)
    : Process :=
  record (Sent sock msg) w.

(** ** The [Sdk] class: construction, [setupRedux], [emit] *)

Definition default_authenticator : Authenticator :=
  fun _ => Resolves unauthenticated.

(** [new Sdk(baseUrl, authenticator)] *)
Definition new_Sdk (url : string) (auth : Authenticator) (w : Process)
    : nat * Process :=
  (length (sdks w),
   set_sdks (fun l => l ++ [{| baseUrl := url; socket := None;
                               jobEventEmitter := ∅;
                               authenticator := auth |}]) w).

Definition toString (n : Z) : string := pretty n.

(** 2^53: up to here a JavaScript number counts integers one by one. *)
Definition MAX_SAFE : Z := 9007199254740992.

(** What [jobId++] leaves in [jobId]: the double nearest to [jobId + 1].
    Below 2^53 that is [jobId + 1]; 2^53 + 1 is no double and rounds back
    to 2^53.  The counter starts at 1, so these are all its values. *)
Definition increment (n : Z) : Z :=
  if (n <? MAX_SAFE)%Z then (n + 1)%Z else n.
Arguments increment : simpl never.

(** [job] as a condition, and [job === 0]. *)
Definition job_truthy (j : option Z) : bool :=
  match j with Some n => negb (n =? 0)%Z | None => false end.
Definition job_is_zero (j : option Z) : bool :=
  match j with Some n => (n =? 0)%Z | None => false end.

(** The callback of [store.subscribe(() => ...)] in [setupRedux]. *)
Definition store_listener (this store : nat) (w : Process) : option Process :=
  σ ← stores w !! store;
  let j := job (getState σ) in
  if negb (job_truthy j) && negb (job_is_zero j) then Some w
  else match j with
       | Some n => jobEventEmitter_emit this (toString n) [] w
       | None => None       (* null.toString() throws; the guard excludes it *)
       end.

(** [setupRedux(store, socket)] *)
Definition setupRedux (this store : nat) (sock : SocketId) (w : Process)
    : option Process :=
  _ ← sdks w !! this;
  _ ← stores w !! store;
  let w1 := set_sdks (alter (set_socket sock) this) w in
  Some (set_stores (alter (fun σ => {| getState := getState σ;
                                       subscribers := subscribers σ ++ [this] |})
                          store) w1).

(** [emit(action, ...args)] *)
Definition emit (this : nat) (action : string) (args : list JsVal)
    (w : Process) : option (PromiseId * Process) :=
  s ← sdks w !! this;
  let jId := jobId w in
  let w := set_jobId (increment (jobId w)) w in
  let opts := VObj [("jobId"%string, VNum jId)] in
  let newArgs := [VStr action; opts] ++ args in
  let '(p, w) := new_promise w in
  let w := once this (toString jId) p w in
  let w := match socket s with
           | Some sock => socket_emit sock newArgs w
           | None =>
               (* the executor throws: the promise is rejected *)
               reject p (TypeError "Cannot read property 'emit' of undefined") w
           end in
  Some (p, w).

(** ** The redux store, as far as the engine depends on it *)

Definition createStore (st : State) (w : Process) : nat * Process :=
  (length (stores w),
   set_stores (fun l => l ++ [{| getState := st; subscribers := [] |}]) w).

Fixpoint notify (store : nat) (subs : list nat) (w : Process) : option Process :=
  match subs with
  | [] => Some w
  | this :: subs' => w' ← store_listener this store w; notify store subs' w'
  end.

(** A dispatched action, reduced to the state it leads to: the store takes
    the new state and calls its subscribers in order. *)
Definition dispatch (store : nat) (st : State) (w : Process) : option Process :=
  σ ← stores w !! store;
  let w1 := set_stores (alter (fun σ => {| getState := st;
                                           subscribers := subscribers σ |})
                              store) w in
  notify store (subscribers σ) w1.

(** ** Runs of a process *)

Inductive Op : Type :=
| NewSdk (url : string) (auth : Authenticator)
| CreateStore (st : State)
| SetupRedux (this store : nat) (sock : SocketId)
| Emit (this : nat) (action : string) (args : list JsVal)
| Dispatch (store : nat) (st : State).

(** What an operation makes of the process. *)
Definition step_all (op : Op) (w : Process) : option Process :=
  match op with
  | NewSdk url auth => Some (snd (new_Sdk url auth w))
  | CreateStore st => Some (snd (createStore st w))
  | SetupRedux this store sock => setupRedux this store sock w
  | Emit this action args => snd <$> emit this action args w
  | Dispatch store st => dispatch store st w
  end.

(** Every history of a process. *)
Fixpoint run_all (ops : list Op) (w : Process) : option Process :=
  match ops with
  | [] => Some w
  | op :: ops' => w' ← step_all op w; run_all ops' w'
  end.

(** The counter still counts after one more call. *)
Definition in_range (w : Process) : bool := (jobId w + 1 <? MAX_SAFE)%Z.
Arguments in_range : simpl never.

(** The histories in which the counter counts: [step] and [run] follow a
    process as [step_all] and [run_all] do, and stop before a call of [emit]
    that would bring the counter to 2^53.  The processes they lead to have
    their counter below 2^53. *)
Definition step (op : Op) (w : Process) : option Process :=
  match op with
  | Emit _ _ _ => if in_range w then step_all op w else None
  | _ => step_all op w
  end.

Fixpoint run (ops : list Op) (w : Process) : option Process :=
  match ops with
  | [] => Some w
  | op :: ops' => w' ← step op w; run ops' w'
  end.

(** [calls] in a row on one instance, and replies reported one by one. *)
Fixpoint emit_all (this : nat) (calls : list (string * list JsVal))
    (w : Process) : option (list PromiseId * Process) :=
  match calls with
  | [] => Some ([], w)
  | (action, args) :: calls' =>
      '(p, w') ← emit this action args w;
      '(ps, w'') ← emit_all this calls' w';
      Some (p :: ps, w'')
  end.

Fixpoint deliver (store : nat) (payload : Z -> JsVal) (ids : list Z)
    (w : Process) : option Process :=
  match ids with
  | [] => Some w
  | k :: ids' =>
      w' ← dispatch store {| job := Some k; data := payload k |} w;
      deliver store payload ids' w'
  end.

(** ** What the emitters hold *)

Definition waiters_at (w : Process) (i : nat) (name : string) : list Listener :=
  match sdks w !! i with
  | Some s => listeners name (jobEventEmitter s)
  | None => []
  end.

Definition waiter (w : Process) (i : nat) (name : string) (p : PromiseId)
    : Prop :=
  OnceResolve p ∈ waiters_at w i name.

(** The listeners of [name] in every emitter of the process. *)
Definition all_waiters (w : Process) (name : string) : list Listener :=
  sdks w ≫= (fun s => listeners name (jobEventEmitter s)).

Definition called (l : list Event) : list PromiseId :=
  omap (fun e => match e with Called p _ => Some p | _ => None end) l.

Definition registered (l : list Event) : list string :=
  omap (fun e => match e with Registered _ n _ => Some n | _ => None end) l.

(** The call with identifier [k] on instance [i] still waits: its waiter
    listens and its promise [p] is pending. *)
Definition awaiting (w : Process) (i : nat) (k : Z) (p : PromiseId) : Prop :=
  waiters_at w i (toString k) = [OnceResolve p]
  /\ promises w !! p = Some Pending.

(** A pending promise fulfilled with [v]; a settled one stays as it is. *)
Definition fulfil (v : JsVal) (o : option PromiseState) : option PromiseState :=
  match o with
  | Some Pending => Some (Fulfilled v)
  | _ => o
  end.

(** [jobEventEmitter.emit] on an instance that exists. *)
Definition fire_at (name : string) (args : list JsVal) (w : Process)
    (this : nat) : Process :=
  foldl (call_listener args)
    (set_sdks (alter (set_emitter (delete name)) this) w)
    (waiters_at w this name).

(** The operation reports the reply to job [k]. *)
Definition reports (k : Z) (op : Op) : Prop :=
  match op with
  | Dispatch _ st => job st = Some k
  | _ => False
  end.

(** Instance [i] has subscribed to [store] with [setupRedux]. *)
Definition subscribed (w : Process) (store i : nat) : Prop :=
  exists σ, stores w !! store = Some σ /\ i ∈ subscribers σ.

(** What holds of every process the operations can lead to. *)
Record wf (w : Process) : Prop := {
  wf_counter : (1 <= jobId w)%Z;
  wf_names : forall i n p, waiter w i n p ->
             exists k, n = toString k /\ (1 <= k < jobId w)%Z;
  wf_targets : forall i n p, waiter w i n p -> (p < length (promises w))%nat;
  wf_place : forall i n p i' n', waiter w i n p -> waiter w i' n' p ->
             i = i' /\ n = n';
  wf_single : forall n, (length (all_waiters w n) <= 1)%nat;
  wf_called : forall p i n, p ∈ called (log w) -> ~ waiter w i n p;
  wf_called_bound : forall p, p ∈ called (log w) -> (p < length (promises w))%nat;
  wf_called_once : NoDup (called (log w));
  wf_subscribers : forall j σ i, stores w !! j = Some σ -> i ∈ subscribers σ ->
                   (i < length (sdks w))%nat
}.

(** ** Strings the HTTP side builds *)

Definition b64_alphabet : string :=
  "ABCDEFGHIJKLMNOPQRSTUVWXYZabcdefghijklmnopqrstuvwxyz0123456789+/".

Definition b64_digit (n : N) : ascii :=
  default "="%char (String.get (N.to_nat n) b64_alphabet).

(** [Buffer.from(s).toString('base64')]: three bytes become four digits,
    a shorter last group is padded with [=]. *)
Fixpoint b64_groups (bs : list N) : string :=
  match bs with
  | [] => ""
  | [a] =>
      String (b64_digit (a / 4)) (String (b64_digit (a mod 4 * 16)) "==")
  | [a; b] =>
      String (b64_digit (a / 4))
        (String (b64_digit (a mod 4 * 16 + b / 16))
           (String (b64_digit (b mod 16 * 4)) "="))
  | a :: b :: c :: rest =>
      String (b64_digit (a / 4))
        (String (b64_digit (a mod 4 * 16 + b / 16))
           (String (b64_digit (b mod 16 * 4 + c / 64))
              (String (b64_digit (c mod 64)) (b64_groups rest))))
  end%N.

Definition base64 (s : string) : string :=
  b64_groups (N_of_ascii <$> list_ascii_of_string s).

Definition hex_digit (n : N) : ascii :=
  default "0"%char (String.get (N.to_nat n) "0123456789ABCDEF").

(** The characters [encodeURIComponent] leaves alone:
    [A-Z a-z 0-9 - _ . ! ~ * ' ( )]. *)
Definition uri_unreserved (c : ascii) : bool :=
  let n := N_of_ascii c in
  ((65 <=? n) && (n <=? 90) || (97 <=? n) && (n <=? 122)
   || (48 <=? n) && (n <=? 57)
   || bool_decide (n ∈ [45; 95; 46; 33; 126; 42; 39; 40; 41]))%N.

Fixpoint encodeURIComponent (s : string) : string :=
  match s with
  | EmptyString => ""
  | String c rest =>
      if uri_unreserved c then String c (encodeURIComponent rest)
      else String "%" (String (hex_digit (N_of_ascii c / 16))
                         (String (hex_digit (N_of_ascii c mod 16))
                            (encodeURIComponent rest)))
  end.

(** A value inside a template literal. *)
Fixpoint template (v : JsVal) : string :=
  match v with
  | VUndefined => "undefined"
  | VNull => "null"
  | VBool true => "true"
  | VBool false => "false"
  | VNum n => pretty n
  | VStr s => s
  | VArr xs =>
      let item x := match x with VUndefined | VNull => ""%string | _ => template x end in
      (fix join (l : list JsVal) : string :=
         match l with
         | [] => ""
         | [x] => item x
         | x :: l' => item x +:+ "," +:+ join l'
         end) xs
  | VObj _ => "[object Object]"
  end.

(** [v.length] and [v[0]] on a truthy value. *)
Definition get_length (v : JsVal) : JsVal :=
  match v with
  | VArr xs => VNum (Z.of_nat (length xs))
  | VStr s => VNum (Z.of_nat (String.length s))
  | VObj fs => assoc "length" fs
  | _ => VUndefined
  end.

Definition get_first (v : JsVal) : JsVal :=
  match v with
  | VArr xs => hd VUndefined xs
  | VStr (String c _) => VStr (String c "")
  | VObj fs => assoc "0" fs
  | _ => VUndefined
  end.

(** [v !== n] for a number literal [n]. *)
Definition strict_neq (v : JsVal) (n : Z) : bool :=
  match v with VNum m => negb (m =? n)%Z | _ => true end.

(** ** The HTTP transport and the async functions over it *)

Inductive Method : Type := GET | POST | PUT | DELETE.

(** A superagent request under construction. *)
Record Request : Type := {
  req_method : Method;
  req_url : string;
  req_header : list (string * string);
  req_data : option JsVal
}.

Record Response : Type := {
  status : Z;
  body : JsVal
}.

(** The network as an async function sees it: the remote service answers a
    request (or fails it) knowing the requests sent before; [auth_calls]
    counts the calls of the credential provider. *)
Record Net : Type := {
  remote : list Request -> Request -> Outcome Response;
  auth_calls : nat;
  sent : list Request
}.

(** An async function body: it runs to a settled outcome. *)
Definition Async (A : Type) : Type := Net -> Outcome A * Net.

Definition ret {A} (a : A) : Async A := fun n => (Resolves a, n).
Definition throw {A} (e : Exn) : Async A := fun n => (Rejects e, n).
Definition await {A B} (m : Async A) (k : A -> Async B) : Async B :=
  fun n => match m n with
           | (Resolves a, n') => k a n'
           | (Rejects e, n') => (Rejects e, n')
           end.

Notation "'let*' x ':=' 'await' m 'in' k" := (await m (fun x => k))
  (at level 10, x pattern, m at level 100, k at level 200).

(** [request[method](url)]: nothing is sent yet. *)
Definition request (method : Method) (url : string) : Request :=
  {| req_method := method; req_url := url; req_header := []; req_data := None |}.

(** [req.set(field, val)] *)
Definition req_set (field val : string) (r : Request) : Request :=
  {| req_method := req_method r; req_url := req_url r;
     req_header := (field, val) ::
                   filter (fun kv => negb (String.eqb (fst kv) field)) (req_header r);
     req_data := req_data r |}.

(** [req.send(data)] attaches the body, to go out as JSON. *)
Definition req_send (d : JsVal) (r : Request) : Request :=
  {| req_method := req_method r; req_url := req_url r;
     req_header := req_header r; req_data := Some d |}.

(** [req.then()]: the request goes out and the promise of its response is
    awaited; returning the request from an async function does the same. *)
Definition req_then (r : Request) : Async Response :=
  fun n => (remote n (sent n) r,
            {| remote := remote n; auth_calls := auth_calls n;
               sent := sent n ++ [r] |}).

(** [this.authenticator()] *)
Definition call_authenticator (sdk : Sdk) : Async AuthenticatorStrategy :=
  fun n => (authenticator sdk (auth_calls n),
            {| remote := remote n; auth_calls := S (auth_calls n);
               sent := sent n |}).

(** A parameter declared [data = null]. *)
Definition or_null (d : JsVal) : JsVal :=
  match d with VUndefined => VNull | _ => d end.

Definition authorize (a : AuthenticatorStrategy) (req : Request) : Request :=
  match a with
  | unauthenticated => req
  | basic username password =>
      req_set "Authorization"
        ("Basic " +:+ base64 (username +:+ ":" +:+ password)) req
  | bearer token => req_set "Authorization" ("Bearer " +:+ token) req
  end.

Definition _req (sdk : Sdk) (method : Method) (path : string) (d : JsVal)
    : Async Response :=
  let d := or_null d in
  let req := request method (baseUrl sdk +:+ path) in
  let* authStrategy := await call_authenticator sdk in
  let req := authorize authStrategy req in
  if negb (truthy d) then req_then req
  else req_then (req_send d req).

Definition postRequest (sdk : Sdk) (path : string) (d : JsVal) : Async Response :=
  _req sdk POST path (or_null d).
Definition deleteRequest (sdk : Sdk) (path : string) : Async Response :=
  _req sdk DELETE path VUndefined.
Definition putRequest (sdk : Sdk) (path : string) (d : JsVal) : Async Response :=
  _req sdk PUT path (or_null d).
Definition getRequest (sdk : Sdk) (path : string) : Async Response :=
  _req sdk GET path VUndefined.

(** [class S]: the wrappers hold the [Sdk] and forward to it. *)
Module S.
Definition getRequest (sdk : Sdk) path := getRequest sdk path.
Definition deleteRequest (sdk : Sdk) path := deleteRequest sdk path.
Definition putRequest (sdk : Sdk) path d := putRequest sdk path d.
Definition postRequest (sdk : Sdk) path d := postRequest sdk path d.
End S.

Module ResourceSdk.
Definition get (resourcePath : string) (sdk : Sdk) (id : string) : Async JsVal :=
  let* res := await getRequest sdk ("/" +:+ resourcePath +:+ "/" +:+ id) in
  ret (body res).

Definition del (resourcePath : string) (sdk : Sdk) (id : string) : Async unit :=
  let* _ := await deleteRequest sdk ("/" +:+ resourcePath +:+ "/" +:+ id) in
  ret tt.
End ResourceSdk.

Record StartEmailVerificationBody : Type := {
  email : string;
  locale : option string
}.

(** The body as the object that is sent. *)
Definition body_object (b : StartEmailVerificationBody) : JsVal :=
  VObj (("email"%string, VStr (email b)) ::
        match locale b with
        | Some l => [("locale"%string, VStr l)]
        | None => []
        end).

Module UserSdk.
Definition fromEmail (sdk : Sdk) (email : string) : Async JsVal :=
  let* res := await S.getRequest sdk ("/users?email=" +:+ encodeURIComponent email) in
  let body := body res in
  if negb (truthy body) then ret VNull
  else if strict_neq (get_length body) 1 then ret VNull
  else ret (get_first body).

Definition startPasswordReset (sdk : Sdk) (id : JsVal) (b : JsVal) : Async unit :=
  let* _ := await S.postRequest sdk
              ("/users/" +:+ template id +:+ "/start-password-reset") b in
  ret tt.

Definition _startEmailVerification (sdk : Sdk) (id : JsVal)
    (b : StartEmailVerificationBody) : Async unit :=
  let* _ := await S.postRequest sdk
              ("/users/" +:+ template id +:+ "/start-email-verification")
              (body_object b) in
  ret tt.

Definition startEmailVerification (sdk : Sdk) (b : StartEmailVerificationBody)
    : Async unit :=
  let* user := await fromEmail sdk (email b) in
  if negb (truthy user) then throw (Error "User not found")
  else
    let* _ := await _startEmailVerification sdk (get_prop "id" user) b in
    ret tt.

Definition forgotPassword (sdk : Sdk) (p : StartEmailVerificationBody)
    : Async unit :=
  let* user := await fromEmail sdk (email p) in
  if negb (truthy user) then throw (Error "User not found")
  else
    let* _ := await startPasswordReset sdk (get_prop "id" user)
                (match locale p with
                 | Some l => if negb (String.eqb l "")
                             then VObj [("locale"%string, VStr l)] else VObj []
                 | None => VObj []
                 end) in
    ret tt.
End UserSdk.

(** The response as the JavaScript object a caller receives. *)
Definition response_object (res : Response) : JsVal :=
  VObj [("status"%string, VNum (status res)); ("body"%string, body res)].

(** The header a strategy asks for. *)
Definition header_of (a : AuthenticatorStrategy) : list (string * string) :=
  match a with
  | unauthenticated => []
  | basic username password =>
      [("Authorization"%string,
        "Basic " +:+ base64 (username +:+ ":" +:+ password))]
  | bearer token => [("Authorization"%string, "Bearer " +:+ token)]
  end.

(** The request [_req] builds once the strategy [a] is known. *)
Definition built (sdk : Sdk) (method : Method) (path : string) (d : JsVal)
    (a : AuthenticatorStrategy) : Request :=
  {| req_method := method; req_url := baseUrl sdk +:+ path;
     req_header := header_of a;
     req_data := if truthy d then Some d else None |}.

Definition after_auth (n : Net) : Net :=
  {| remote := remote n; auth_calls := S (auth_calls n); sent := sent n |}.

Definition after_send (r : Request) (n : Net) : Net :=
  {| remote := remote n; auth_calls := auth_calls n; sent := sent n ++ [r] |}.

(** The four operations of the facade under one name; [get] and [delete]
    take no body. *)
Definition facade (m : Method) (sdk : Sdk) (path : string) (d : JsVal)
    : Async Response :=
  match m with
  | GET => getRequest sdk path
  | DELETE => deleteRequest sdk path
  | PUT => putRequest sdk path d
  | POST => postRequest sdk path d
  end.

Definition facade_data (m : Method) (d : JsVal) : JsVal :=
  match m with
  | GET | DELETE => VNull
  | PUT | POST => or_null d
  end.

(** The reading of the facade contract under which the promise of an
    operation carries the parsed body itself, and nothing for [delete]. *)
Definition resolves_to_parsed_body : Prop :=
  forall m sdk path d n res n',
    facade m sdk path d n = (Resolves res, n') ->
    response_object res = match m with DELETE => VUndefined | _ => body res end.

(** ** Sample objects *)

Definition sample_sdk (auth : Authenticator) : Sdk :=
  {| baseUrl := "/api"; socket := None; jobEventEmitter := ∅;
     authenticator := auth |}.

Definition sample_users : JsVal :=
  VArr [VObj [("id"%string, VStr "u1")]].

(** A service that answers every request with status 200 and [b]. *)
Definition answering (b : JsVal) : Net :=
  {| remote := fun _ _ => Resolves {| status := 200; body := b |};
     auth_calls := 0; sent := [] |}.

(** A provider whose token changes with every call. *)
Definition rotating : Authenticator :=
  fun k => Resolves (bearer ("t" +:+ pretty k)).

Definition failing (e : Exn) : Authenticator := fun _ => Rejects e.


(** An application with one instance, set up on store 0 and socket 0,
    that has made [n] calls already. *)
Definition sample_run (n : nat) : list Op :=
  [NewSdk "/api" default_authenticator;
   CreateStore {| job := None; data := VNull |};
   SetupRedux 0 0 0]
  ++ replicate n (Emit 0 "updateStats" []).

Definition sample_process (n : nat) : Process :=
  default init (run (sample_run n) init).

Definition sample_instance (n : nat) : Sdk :=
  default (sample_sdk default_authenticator) (sdks (sample_process n) !! 0%nat).

(** ** The named socket operations of [Sdk] *)

(** A parameter declared [filter = {}]. *)
Definition or_empty (v : JsVal) : JsVal :=
  match v with VUndefined => VObj [] | _ => v end.

Definition listBookingsInTime (this : nat) (laundryId : string)
    (from to : JsVal) :=
  emit this "listBookingsInTime" [VStr laundryId; from; to].
Definition listBookingsForUser (this : nat) (laundryId userId : string)
    (filter : JsVal) :=
  emit this "listBookingsForUser" [VStr laundryId; VStr userId; or_empty filter].
Definition listUsersAndInvites (this : nat) (laundryId : string) :=
  emit this "listUsersAndInvites" [VStr laundryId].
Definition listUsers (this : nat) (options : JsVal) :=
  emit this "listUsers" [options].
Definition listMachines (this : nat) (laundryId : string) :=
  emit this "listMachines" [VStr laundryId].
Definition listLaundries (this : nat) (options : JsVal) :=
  emit this "listLaundries" [options].
Definition listMachinesAndUsers (this : nat) (laundryId : string) :=
  emit this "listMachinesAndUsers" [VStr laundryId].
Definition fetchLaundry (this : nat) (laundryId : string) :=
  emit this "fetchLaundry" [VStr laundryId].
Definition fetchUser (this : nat) (userId : string) :=
  emit this "fetchUser" [VStr userId].
Definition updateStats (this : nat) := emit this "updateStats" [].
Definition setupInitialEvents (this : nat) := emit this "setupInitialEvents" [].

(** The operations next to what each is to put on the wire after the
    options object: its own name first, then its arguments in order. *)
Definition socket_operations (laundryId userId : string)
    (from to filter options : JsVal)
    : list (string * list JsVal * (nat -> Process -> option (PromiseId * Process))) :=
  [("listBookingsInTime"%string, [VStr laundryId; from; to],
    fun this => listBookingsInTime this laundryId from to);
   ("listBookingsForUser"%string, [VStr laundryId; VStr userId; filter],
    fun this => listBookingsForUser this laundryId userId filter);
   ("listBookingsForUser"%string, [VStr laundryId; VStr userId; VObj []],
    fun this => listBookingsForUser this laundryId userId VUndefined);
   ("listUsersAndInvites"%string, [VStr laundryId],
    fun this => listUsersAndInvites this laundryId);
   ("listUsers"%string, [options], fun this => listUsers this options);
   ("listMachines"%string, [VStr laundryId],
    fun this => listMachines this laundryId);
   ("listLaundries"%string, [options], fun this => listLaundries this options);
   ("listMachinesAndUsers"%string, [VStr laundryId],
    fun this => listMachinesAndUsers this laundryId);
   ("fetchLaundry"%string, [VStr laundryId],
    fun this => fetchLaundry this laundryId);
   ("fetchUser"%string, [VStr userId], fun this => fetchUser this userId);
   ("updateStats"%string, [], updateStats);
   ("setupInitialEvents"%string, [], setupInitialEvents)].


(** How a promise that [emit] returned stands in a process: pending with
    its waiter listening under the identifier of its call, fulfilled with
    undefined by a call of its listener, or rejected by the missing
    socket. *)
Definition accounted (w : Process) (p : PromiseId) (st : PromiseState) : Prop :=
  match st with
  | Pending => exists i k, awaiting w i k p /\ (1 <= k < jobId w)%Z
  | Fulfilled v => v = VUndefined /\ p ∈ called (log w)
  | Rejected e => exists msg, e = TypeError msg
  end.

(** ** Further methods of the resource facades *)

(** The body of [signUpUser]: [{displayName, email, password, locale?}]. *)
Record SignUpBody : Type := {
  su_displayName : string;
  su_email : string;
  su_password : string;
  su_locale : option string
}.

(** The [{displayName, email, password}] that [signUpUser] hands to
    [createUser]. *)
Definition create_user_object (b : SignUpBody) : JsVal :=
  VObj [("displayName"%string, VStr (su_displayName b));
        ("email"%string, VStr (su_email b));
        ("password"%string, VStr (su_password b))].

(** More of [class UserSdk]. *)
Module UserSdkOps.
Definition createUser (sdk : Sdk) (b : JsVal) : Async JsVal :=
  let* res := await S.postRequest sdk "/users" b in
  ret (body res).

Definition signUpUser (sdk : Sdk) (b : SignUpBody) : Async JsVal :=
  let* user := await createUser sdk (create_user_object b) in
  if negb (truthy user) then throw (Error "Failed to create user")
  else
    let* _ := await UserSdk._startEmailVerification sdk (get_prop "id" user)
                {| email := su_email b; locale := su_locale b |} in
    ret user.

Definition resetPassword (sdk : Sdk) (id : string) (b : JsVal) : Async Response :=
  S.postRequest sdk ("/users/" +:+ id +:+ "/password-reset") b.
End UserSdkOps.

Module MachineSdk.
Definition updateMachine (sdk : Sdk) (id : string) (params : JsVal)
    : Async Response :=
  S.putRequest sdk ("/machines/" +:+ id) params.

Definition createBooking (sdk : Sdk) (id : string) (b : JsVal) : Async Response :=
  S.postRequest sdk ("/machines/" +:+ id +:+ "/bookings") b.
End MachineSdk.

Module LaundrySdk.
Definition updateLaundry (sdk : Sdk) (id : string) (params : JsVal)
    : Async JsVal :=
  let* res := await S.putRequest sdk ("/laundries/" +:+ id) params in
  ret (body res).

Definition removeUserFromLaundry (sdk : Sdk) (id userId : string)
    : Async Response :=
  S.deleteRequest sdk ("/laundries/" +:+ id +:+ "/users/" +:+ userId).
End LaundrySdk.

Module BookingSdk.
Definition updateBooking (sdk : Sdk) (id : string) (dates : JsVal)
    : Async JsVal :=
  let* res := await S.putRequest sdk ("/bookings/" +:+ id) dates in
  ret (body res).
End BookingSdk.

(** The body [forgotPassword] sends: the locale when there is one. *)
Definition reset_object (p : StartEmailVerificationBody) : JsVal :=
  VObj match locale p with
       | Some l => if String.eqb l "" then [] else [("locale"%string, VStr l)]
       | None => []
       end.

(** A service that is down: every request fails with [e]. *)
Definition down (e : Exn) : Net :=
  {| remote := fun _ _ => Rejects e; auth_calls := 0; sent := [] |}.

(** Where a character stands in an alphabet (its length when absent):
    the value of a base64 or hexadecimal digit. *)
Fixpoint index_of (c : ascii) (s : string) : N :=
  match s with
  | EmptyString => 0
  | String c' s' => if Ascii.eqb c c' then 0 else N.succ (index_of c s')
  end.

(** The characters of an encoded URI component. *)
Definition uri_safe (c : ascii) : Prop :=
  uri_unreserved c = true \/ c = "%"%char.

(** ** Histories in which the counter has stopped *)

(** What holds of every process in every history, whether the counter still
    counts or not. *)
Record sound (w : Process) : Prop := {
  s_targets : forall i n p, waiter w i n p -> (p < length (promises w))%nat;
  s_place : forall i n p i' n', waiter w i n p -> waiter w i' n' p ->
            i = i' /\ n = n';
  s_nodup : forall i n, NoDup (waiters_at w i n);
  s_called : forall p i n, p ∈ called (log w) -> ~ waiter w i n p;
  s_called_bound : forall p, p ∈ called (log w) -> (p < length (promises w))%nat;
  s_called_once : NoDup (called (log w));
  s_subscribers : forall j σ i, stores w !! j = Some σ -> i ∈ subscribers σ ->
                  (i < length (sdks w))%nat
}.

(** The readings under which the identifiers stay apart in every history:
    no identifier is handed out twice; no identifier has two waiters; and
    after any number of calls in a row each reply settles the promise of
    its own call and no other. *)
Definition identifiers_never_reused : Prop :=
  forall ops w, run_all ops init = Some w -> NoDup (registered (log w)).

Definition one_waiter_per_identifier : Prop :=
  forall ops w k,
    run_all ops init = Some w ->
    (length (all_waiters w (toString k)) <= 1)%nat.

Definition routes_every_sequence : Prop :=
  forall ops w this s sock store calls payload order delivered rest,
    run_all ops init = Some w ->
    sdks w !! this = Some s -> socket s = Some sock ->
    subscribed w store this ->
    order ≡ₚ seqZ (jobId w) (Z.of_nat (length calls)) ->
    order = delivered ++ rest ->
    exists ps w1 w2,
      emit_all this calls w = Some (ps, w1)
      /\ length ps = length calls
      /\ deliver store payload delivered w1 = Some w2
      /\ (forall idx p, ps !! idx = Some p ->
            promises w2 !! p
            = Some (if bool_decide ((jobId w + Z.of_nat idx)%Z ∈ delivered)
                    then Fulfilled VUndefined else Pending)).

(** * Proofs *)

(** ** The HTTP facade *)

Lemma or_null_idem d : or_null (or_null d) = or_null d.
Proof. by destruct d. Qed.

Lemma truthy_or_null d : truthy (or_null d) = truthy d.
Proof. by destruct d. Qed.

Lemma or_null_truthy d : truthy d = true -> or_null d = d.
Proof. by destruct d. Qed.

(** [_req] in one equation: the provider is called, and only when it
    resolves does one request go out. *)
Lemma _req_eq sdk method path d n :
  _req sdk method path d n =
  match authenticator sdk (auth_calls n) with
  | Resolves a =>
      let r := built sdk method path (or_null d) a in
      (remote n (sent n) r, after_send r (after_auth n))
  | Rejects e => (Rejects e, after_auth n)
  end.
Proof.
  unfold _req, await, call_authenticator.
  destruct (authenticator sdk (auth_calls n)) as [a|e]; [|done].
  unfold built. destruct (truthy (or_null d)); by destruct a.
Qed.

Lemma _req_resolved sdk method path d n a :
  authenticator sdk (auth_calls n) = Resolves a ->
  _req sdk method path d n =
  (remote n (sent n) (built sdk method path (or_null d) a),
   after_send (built sdk method path (or_null d) a) (after_auth n)).
Proof. intros Ha. by rewrite _req_eq, Ha. Qed.

Lemma _req_rejected sdk method path d n e :
  authenticator sdk (auth_calls n) = Rejects e ->
  _req sdk method path d n = (Rejects e, after_auth n).
Proof. intros Ha. by rewrite _req_eq, Ha. Qed.

Lemma or_null_facade_data m d : or_null (facade_data m d) = facade_data m d.
Proof. destruct m; simpl; by rewrite ?or_null_idem. Qed.

Lemma facade_eq m sdk path d n :
  facade m sdk path d n = _req sdk m path (facade_data m d) n.
Proof.
  destruct m; simpl; unfold getRequest, postRequest, putRequest, deleteRequest;
    rewrite !_req_eq, ?or_null_idem; done.
Qed.

(** C4, as the code has it: each of the four operations sends one request,
    to the base URL followed by the path, and its promise settles as the
    transport's promise does, so it resolves to the response object, whose
    [body] is the parsed body; [ResourceSdk.get] takes the body out and
    [ResourceSdk.del] resolves to nothing. *)
Theorem facade_resolves_to_response m sdk path d n a :
  authenticator sdk (auth_calls n) = Resolves a ->
  let r := built sdk m path (facade_data m d) a in
  facade m sdk path d n = (remote n (sent n) r, after_send r (after_auth n))
  /\ req_method r = m
  /\ req_url r = baseUrl sdk +:+ path
  /\ (forall res rp id,
        remote n (sent n) (built sdk GET ("/" +:+ rp +:+ "/" +:+ id) VNull a)
          = Resolves res ->
        fst (ResourceSdk.get rp sdk id n) = Resolves (body res))
  /\ (forall res rp id,
        remote n (sent n) (built sdk DELETE ("/" +:+ rp +:+ "/" +:+ id) VNull a)
          = Resolves res ->
        fst (ResourceSdk.del rp sdk id n) = Resolves tt).
Proof.
  intros Ha r. split_and!.
  - rewrite facade_eq, (_req_resolved _ _ _ _ _ a Ha).
    subst r. by rewrite or_null_facade_data.
  - done.
  - done.
  - intros res rp id Hr. unfold ResourceSdk.get, await, getRequest.
    rewrite (_req_resolved _ _ _ _ _ a Ha). simpl in *. by rewrite Hr.
  - intros res rp id Hr. unfold ResourceSdk.del, await, deleteRequest.
    rewrite (_req_resolved _ _ _ _ _ a Ha). simpl in *. by rewrite Hr.
Qed.

Lemma facade_resolves_to_response_witness :
  facade GET (sample_sdk default_authenticator) "/users/u1" VUndefined
    (answering sample_users)
  = (Resolves {| status := 200; body := sample_users |},
     after_send (built (sample_sdk default_authenticator) GET "/users/u1"
                   VNull unauthenticated)
       (after_auth (answering sample_users))).
Proof.
  exact (proj1 (facade_resolves_to_response GET
                  (sample_sdk default_authenticator) "/users/u1" VUndefined
                  (answering sample_users) unauthenticated eq_refl)).
Defined.

(** C4, as stated, fails: [getRequest] resolves to the response object and
    not to the parsed body. *)
Lemma facade_does_not_resolve_to_body : ~ resolves_to_parsed_body.
Proof.
  intros H.
  specialize (H GET (sample_sdk default_authenticator) "/users/u1"%string
                VUndefined (answering sample_users) _ _ eq_refl).
  discriminate H.
Qed.

(** C7: every call of [_req] invokes the credential provider once more and
    uses the answer of that very call; the request carries no header for
    [unauthenticated], [Basic] and the base64 of [username:password] for
    [basic], [Bearer] and the token for [bearer]. *)
Theorem authorization_rendered_per_call sdk method path d n :
  auth_calls (snd (_req sdk method path d n)) = S (auth_calls n)
  /\ (forall a, authenticator sdk (auth_calls n) = Resolves a ->
        exists req, sent (snd (_req sdk method path d n)) = sent n ++ [req]
                    /\ req_header req = header_of a)
  /\ header_of unauthenticated = []
  /\ header_of (basic "a" "b")
     = [("Authorization"%string, "Basic " +:+ base64 "a:b")]
  /\ base64 "a:b" = "YTpi"%string
  /\ header_of (bearer "xyz") = [("Authorization"%string, "Bearer xyz"%string)].
Proof.
  split_and!; try reflexivity.
  - rewrite _req_eq. by destruct (authenticator sdk (auth_calls n)).
  - intros a Ha. rewrite (_req_resolved _ _ _ _ _ a Ha). simpl. eauto.
Qed.

(** Two calls in a row with a provider that rotates its token: the second
    request carries the second token. *)
Lemma authorization_rendered_per_call_witness :
  let sdk := sample_sdk rotating in
  let n1 := snd (_req sdk GET "/statistics" VUndefined (answering VNull)) in
  let n2 := snd (_req sdk GET "/statistics" VUndefined n1) in
  auth_calls n2 = 2%nat
  /\ req_header <$> sent n2
     = [[("Authorization"%string, "Bearer t0"%string)];
        [("Authorization"%string, "Bearer t1"%string)]].
Proof.
  intros sdk n1 n2.
  destruct (authorization_rendered_per_call sdk GET "/statistics" VUndefined
              (answering VNull)) as (Hc1 & Hs1 & _).
  destruct (authorization_rendered_per_call sdk GET "/statistics" VUndefined n1)
    as (Hc2 & Hs2 & _).
  destruct (Hs1 (bearer "t0") eq_refl) as (r1 & Hr1 & Hh1).
  destruct (Hs2 (bearer "t1") eq_refl) as (r2 & Hr2 & Hh2).
  split; [exact Hc2|].
  fold n2 in Hr2. fold n1 in Hr1. rewrite Hr2, Hr1. simpl.
  by rewrite Hh1, Hh2.
Defined.

(** C8: when the credential provider rejects with [e], each of the four
    operations rejects with the same [e] and no request has been sent. *)
Theorem provider_rejection_propagates m sdk path d n e :
  authenticator sdk (auth_calls n) = Rejects e ->
  fst (facade m sdk path d n) = Rejects e
  /\ sent (snd (facade m sdk path d n)) = sent n
  /\ (forall rp id, ResourceSdk.get rp sdk id n = (Rejects e, after_auth n))
  /\ (forall rp id, ResourceSdk.del rp sdk id n = (Rejects e, after_auth n))
  /\ (forall em, UserSdk.fromEmail sdk em n = (Rejects e, after_auth n)).
Proof.
  intros Ha. split_and!.
  - by rewrite facade_eq, (_req_rejected _ _ _ _ _ e Ha).
  - by rewrite facade_eq, (_req_rejected _ _ _ _ _ e Ha).
  - intros rp id. unfold ResourceSdk.get, await, getRequest.
    by rewrite (_req_rejected _ _ _ _ _ e Ha).
  - intros rp id. unfold ResourceSdk.del, await, deleteRequest.
    by rewrite (_req_rejected _ _ _ _ _ e Ha).
  - intros em. unfold UserSdk.fromEmail, await, S.getRequest, getRequest.
    by rewrite (_req_rejected _ _ _ _ _ e Ha).
Qed.

Lemma provider_rejection_propagates_witness :
  fst (facade POST (sample_sdk (failing (Error "expired"))) "/users"
         (VObj []) (answering VNull)) = Rejects (Error "expired")
  /\ sent (snd (facade POST (sample_sdk (failing (Error "expired"))) "/users"
                  (VObj []) (answering VNull))) = [].
Proof.
  destruct (provider_rejection_propagates POST
              (sample_sdk (failing (Error "expired"))) "/users" (VObj [])
              (answering VNull) (Error "expired") eq_refl) as (H1 & H2 & _).
  exact (conj H1 H2).
Defined.

(** The facade on a service that answers: a [post] without a body sends
    none, a [post] with a body sends it, and a user found by email gets the
    verification request. *)
Example post_without_body :
  req_data <$> sent (snd (postRequest (sample_sdk default_authenticator)
                            "/laundries/l1/invite-code" VUndefined
                            (answering VNull)))
  = [None].
Proof. reflexivity. Qed.

Example post_with_body :
  req_data <$> sent (snd (postRequest (sample_sdk default_authenticator)
                            "/users" (VObj [("x"%string, VNum 1)])
                            (answering VNull)))
  = [Some (VObj [("x"%string, VNum 1)])].
Proof. reflexivity. Qed.

Example verification_of_a_known_user :
  let n := snd (UserSdk.startEmailVerification
                  (sample_sdk (fun _ => Resolves (basic "a" "b")))
                  {| email := "a@b.c"; locale := Some "en"%string |}
                  (answering sample_users)) in
  (fun r => (req_method r, req_url r, req_header r)) <$> sent n
  = [(GET, "/api/users?email=a%40b.c"%string,
      [("Authorization"%string, "Basic YTpi"%string)]);
     (POST, "/api/users/u1/start-email-verification"%string,
      [("Authorization"%string, "Basic YTpi"%string)])].
Proof. reflexivity. Qed.

(** ** Users looked up by email *)

Lemma fromEmail_inv sdk em n u n1 :
  UserSdk.fromEmail sdk em n = (Resolves u, n1) ->
  exists res,
    S.getRequest sdk ("/users?email=" +:+ encodeURIComponent em) n
      = (Resolves res, n1)
    /\ u = (if negb (truthy (body res)) then VNull
            else if strict_neq (get_length (body res)) 1 then VNull
            else get_first (body res)).
Proof.
  unfold UserSdk.fromEmail, await.
  destruct (S.getRequest sdk _ n) as [[res|e] n'] eqn:Hget; [|done].
  intros H. exists res.
  destruct (negb (truthy (body res)));
    [|destruct (strict_neq (get_length (body res)) 1)];
    unfold ret in H; by simplify_eq.
Qed.

Lemma getRequest_sent sdk path n res n1 :
  S.getRequest sdk path n = (Resolves res, n1) ->
  exists lookup, sent n1 = sent n ++ [lookup]
                 /\ req_method lookup = GET
                 /\ req_url lookup = baseUrl sdk +:+ path.
Proof.
  unfold S.getRequest, getRequest. rewrite _req_eq.
  destruct (authenticator sdk (auth_calls n)) as [a|e]; [|done].
  simpl. intros H. simplify_eq. eauto.
Qed.

(** C9: when [fromEmail] finds no user, [startEmailVerification] and
    [forgotPassword] reject with the error "User not found", and the lookup
    is the only request that was sent. *)
Theorem user_not_found_rejects sdk b n u n1 :
  UserSdk.fromEmail sdk (email b) n = (Resolves u, n1) ->
  truthy u = false ->
  UserSdk.startEmailVerification sdk b n = (Rejects (Error "User not found"), n1)
  /\ UserSdk.forgotPassword sdk b n = (Rejects (Error "User not found"), n1)
  /\ exists lookup,
       sent n1 = sent n ++ [lookup]
       /\ req_method lookup = GET
       /\ req_url lookup
          = baseUrl sdk +:+ "/users?email=" +:+ encodeURIComponent (email b).
Proof.
  intros Hfrom Hu. split_and!.
  - unfold UserSdk.startEmailVerification, await. by rewrite Hfrom, Hu.
  - unfold UserSdk.forgotPassword, await. by rewrite Hfrom, Hu.
  - destruct (fromEmail_inv _ _ _ _ _ Hfrom) as (res & Hget & _).
    by apply getRequest_sent in Hget.
Qed.

Lemma user_not_found_rejects_witness :
  let sdk := sample_sdk default_authenticator in
  let b := {| email := "a@b.c"; locale := None |} in
  fst (UserSdk.startEmailVerification sdk b (answering (VArr [])))
    = Rejects (Error "User not found")
  /\ fst (UserSdk.forgotPassword sdk b (answering (VArr [])))
     = Rejects (Error "User not found")
  /\ req_url <$> sent (snd (UserSdk.forgotPassword sdk b (answering (VArr []))))
     = ["/api/users?email=a%40b.c"%string].
Proof.
  intros sdk b.
  destruct (user_not_found_rejects sdk b (answering (VArr [])) VNull
              (snd (UserSdk.fromEmail sdk (email b) (answering (VArr []))))
              eq_refl eq_refl) as (H1 & H2 & _).
  rewrite H1, H2. done.
Defined.

(** C10: on a lookup that got a response, [fromEmail] resolves to null when
    the response has no body and when the list does not have exactly one
    element, and to the element of a one-element list; so the operations
    built on it answer an ambiguous email with "User not found". *)
Theorem fromEmail_single_or_null sdk em n res n1 :
  S.getRequest sdk ("/users?email=" +:+ encodeURIComponent em) n
    = (Resolves res, n1) ->
  (truthy (body res) = false ->
   UserSdk.fromEmail sdk em n = (Resolves VNull, n1))
  /\ (forall xs, body res = VArr xs -> length xs <> 1%nat ->
        UserSdk.fromEmail sdk em n = (Resolves VNull, n1))
  /\ (forall user, body res = VArr [user] ->
        UserSdk.fromEmail sdk em n = (Resolves user, n1))
  /\ (forall xs b, body res = VArr xs -> length xs <> 1%nat -> email b = em ->
        UserSdk.startEmailVerification sdk b n
          = (Rejects (Error "User not found"), n1)
        /\ UserSdk.forgotPassword sdk b n
           = (Rejects (Error "User not found"), n1)).
Proof.
  intros Hget.
  assert (Hlist : forall xs, body res = VArr xs -> length xs <> 1%nat ->
            UserSdk.fromEmail sdk em n = (Resolves VNull, n1)).
  { intros xs Hb Hlen. unfold UserSdk.fromEmail, await. rewrite Hget, Hb. simpl.
    destruct (Z.eqb_spec (Z.of_nat (length xs)) 1) as [Heq|Hne]; [lia|done]. }
  split_and!; [| exact Hlist | |].
  - intros Hb. unfold UserSdk.fromEmail, await. by rewrite Hget, Hb.
  - intros user Hb. unfold UserSdk.fromEmail, await. by rewrite Hget, Hb.
  - intros xs b Hb Hlen <-.
    pose proof (Hlist xs Hb Hlen) as Hfrom.
    unfold UserSdk.startEmailVerification, UserSdk.forgotPassword, await.
    by rewrite Hfrom.
Qed.

Lemma fromEmail_single_or_null_witness :
  let sdk := sample_sdk default_authenticator in
  let two := VArr [VObj [("id"%string, VStr "u1")]; VObj [("id"%string, VStr "u2")]] in
  fst (UserSdk.fromEmail sdk "a@b.c" (answering two)) = Resolves VNull
  /\ fst (UserSdk.forgotPassword sdk {| email := "a@b.c"; locale := None |}
            (answering two)) = Rejects (Error "User not found").
Proof.
  intros sdk two.
  destruct (fromEmail_single_or_null sdk "a@b.c" (answering two)
              {| status := 200; body := two |}
              (snd (S.getRequest sdk "/users?email=a%40b.c" (answering two)))
              eq_refl) as (_ & Hl & _ & Hops).
  rewrite (Hl _ eq_refl ltac:(simpl; lia)).
  destruct (Hops _ {| email := "a@b.c"; locale := None |} eq_refl
              ltac:(simpl; lia) eq_refl) as [_ Hf].
  by rewrite Hf.
Defined.

(** ** The job correlation engine *)

Section emitter_facts.
Implicit Types (ee : gmap string (list Listener)) (w : Process).

Lemma listeners_once name l ee n :
  listeners n (ee_once name l ee)
  = if decide (n = name) then listeners n ee ++ [l] else listeners n ee.
Proof.
  unfold ee_once, listeners at 1. case_decide as Hn.
  - subst. by rewrite lookup_insert_eq.
  - by rewrite lookup_insert_ne.
Qed.

Lemma listeners_delete name ee n :
  listeners n (delete name ee)
  = if decide (n = name) then [] else listeners n ee.
Proof.
  unfold listeners. case_decide as Hn.
  - subst. by rewrite lookup_delete_eq.
  - by rewrite lookup_delete_ne.
Qed.

Lemma waiters_at_alter f this w i n :
  waiters_at (set_sdks (alter (set_emitter f) this) w) i n
  = match sdks w !! i with
    | Some s => if decide (i = this)
                then listeners n (f (jobEventEmitter s))
                else listeners n (jobEventEmitter s)
    | None => []
    end.
Proof.
  unfold waiters_at. simpl. destruct (decide (i = this)) as [->|Hi].
  - rewrite list_lookup_alter_eq. by destruct (sdks w !! this).
  - rewrite list_lookup_alter_ne by done. by destruct (sdks w !! i).
Qed.

Lemma waiters_at_once this name p w i n :
  is_Some (sdks w !! this) ->
  waiters_at (once this name p w) i n
  = if decide (i = this /\ n = name)
    then waiters_at w i n ++ [OnceResolve p] else waiters_at w i n.
Proof.
  intros [s Hs]. unfold once.
  change (waiters_at (record _ ?w') i n) with (waiters_at w' i n).
  rewrite waiters_at_alter. unfold waiters_at.
  destruct (decide (i = this)) as [->|Hi].
  - rewrite Hs, listeners_once.
    destruct (decide (n = name)) as [->|Hn].
    + by rewrite decide_True.
    + by rewrite decide_False by (by intros [_ ?]).
  - rewrite decide_False by (by intros [? _]). by destruct (sdks w !! i).
Qed.

Lemma waiters_at_deleted this name w i n :
  waiters_at (set_sdks (alter (set_emitter (delete name)) this) w) i n
  = if decide (i = this /\ n = name) then [] else waiters_at w i n.
Proof.
  rewrite waiters_at_alter. unfold waiters_at.
  destruct (sdks w !! i) as [s|]; [|by case_decide].
  destruct (decide (i = this)) as [->|Hi].
  - rewrite listeners_delete.
    destruct (decide (n = name)) as [->|Hn].
    + by rewrite decide_True.
    + by rewrite decide_False by (by intros [_ ?]).
  - by rewrite decide_False by (by intros [? _]).
Qed.

Lemma bind_alter {A B} (g : A -> list B) (f : A -> A) i (l : list A) a :
  l !! i = Some a ->
  alter f i l ≫= g = (take i l ≫= g) ++ g (f a) ++ (drop (S i) l ≫= g).
Proof.
  revert i. induction l as [|x l IH]; intros [|i] Hi; try done.
  - by simplify_eq/=.
  - change (alter f (S i) (x :: l)) with (x :: alter f i l).
    change (take (S i) (x :: l)) with (x :: take i l).
    change (drop (S (S i)) (x :: l)) with (drop (S i) l).
    rewrite !bind_cons, (IH i Hi), <- app_assoc. done.
Qed.

Lemma elem_of_all_waiters w n l :
  l ∈ all_waiters w n <-> exists i, l ∈ waiters_at w i n.
Proof.
  unfold all_waiters, waiters_at. rewrite list_elem_of_bind. split.
  - intros (s & Hl & Hs). apply list_elem_of_lookup in Hs as [i Hi].
    exists i. by rewrite Hi.
  - intros (i & Hl). destruct (sdks w !! i) as [s|] eqn:Hi.
    + exists s. split; [done|]. by eapply list_elem_of_lookup_2.
    + by apply elem_of_nil in Hl.
Qed.

(** Changing one instance changes the listeners of a name by what that
    instance holds. *)
Lemma all_waiters_alter f this w n s :
  sdks w !! this = Some s ->
  all_waiters (set_sdks (alter (set_emitter f) this) w) n
  = (take this (sdks w) ≫= (fun s => listeners n (jobEventEmitter s)))
    ++ listeners n (f (jobEventEmitter s))
    ++ (drop (S this) (sdks w) ≫= (fun s => listeners n (jobEventEmitter s))).
Proof.
  intros Hs. unfold all_waiters. simpl.
  by rewrite (bind_alter (fun s => listeners n (jobEventEmitter s)) _ _ _ s Hs).
Qed.

Lemma all_waiters_split this w n s :
  sdks w !! this = Some s ->
  all_waiters w n
  = (take this (sdks w) ≫= (fun s => listeners n (jobEventEmitter s)))
    ++ listeners n (jobEventEmitter s)
    ++ (drop (S this) (sdks w) ≫= (fun s => listeners n (jobEventEmitter s))).
Proof.
  intros Hs. unfold all_waiters.
  rewrite <- (take_drop_middle (sdks w) this s) at 1 by done.
  by rewrite bind_app, bind_cons.
Qed.

Lemma length_waiters_at w i n :
  (length (waiters_at w i n) <= length (all_waiters w n))%nat.
Proof.
  unfold waiters_at. destruct (sdks w !! i) as [s|] eqn:Hs; [|simpl; lia].
  rewrite (all_waiters_split i w n s Hs), !length_app. lia.
Qed.
End emitter_facts.

Section promise_facts.
Implicit Types (w : Process) (p q : PromiseId).

Lemma fulfil_idem v o : fulfil v (fulfil v o) = fulfil v o.
Proof. by destruct o as [[]|]. Qed.

Lemma settle_lookup p st w q :
  promises (settle p st w) !! q
  = if decide (q = p)
    then match promises w !! q with Some Pending => Some st | o => o end
    else promises w !! q.
Proof.
  unfold settle. destruct (decide (q = p)) as [->|Hq].
  - destruct (promises w !! p) as [[]|] eqn:Hp; simpl; rewrite ?Hp; try done.
    apply list_lookup_insert_eq. by eapply lookup_lt_Some.
  - destruct (promises w !! p) as [[]|] eqn:Hp; simpl; try done.
    by apply list_lookup_insert_ne.
Qed.

Lemma settle_frame p st w :
  jobId (settle p st w) = jobId w /\ sdks (settle p st w) = sdks w
  /\ stores (settle p st w) = stores w /\ log (settle p st w) = log w
  /\ length (promises (settle p st w)) = length (promises w).
Proof.
  unfold settle. destruct (promises w !! p) as [[]|]; simpl;
    rewrite ?length_insert; done.
Qed.

Lemma call_listener_lookup args w l q :
  promises (call_listener args w l) !! q
  = if decide (q = target l) then fulfil (hd VUndefined args) (promises w !! q)
    else promises w !! q.
Proof.
  destruct l as [p]. unfold call_listener, resolve. rewrite settle_lookup.
  simpl. unfold fulfil. by destruct (decide (q = p)), (promises w !! q) as [[]|].
Qed.

Lemma call_listener_frame args w l :
  jobId (call_listener args w l) = jobId w
  /\ sdks (call_listener args w l) = sdks w
  /\ stores (call_listener args w l) = stores w
  /\ log (call_listener args w l)
     = log w ++ [Called (target l) (hd VUndefined args)]
  /\ length (promises (call_listener args w l)) = length (promises w).
Proof.
  destruct l as [p]. unfold call_listener, resolve.
  destruct (settle_frame p (Fulfilled (hd VUndefined args))
              (record (Called p (hd VUndefined args)) w))
    as (-> & -> & -> & -> & ->). done.
Qed.

Lemma fire_frame args ls w :
  jobId (foldl (call_listener args) w ls) = jobId w
  /\ sdks (foldl (call_listener args) w ls) = sdks w
  /\ stores (foldl (call_listener args) w ls) = stores w
  /\ log (foldl (call_listener args) w ls)
     = log w ++ ((fun l => Called (target l) (hd VUndefined args)) <$> ls)
  /\ length (promises (foldl (call_listener args) w ls)) = length (promises w).
Proof.
  revert w. induction ls as [|l ls IH]; intros w; simpl.
  - by rewrite app_nil_r.
  - destruct (IH (call_listener args w l)) as (-> & -> & -> & -> & ->).
    destruct (call_listener_frame args w l) as (-> & -> & -> & -> & ->).
    by rewrite <- app_assoc.
Qed.

Lemma fire_lookup args ls w q :
  promises (foldl (call_listener args) w ls) !! q
  = if decide (OnceResolve q ∈ ls)
    then fulfil (hd VUndefined args) (promises w !! q)
    else promises w !! q.
Proof.
  revert w. induction ls as [|[p] ls IH]; intros w.
  - rewrite decide_False; [done|]. apply not_elem_of_nil.
  - cbn [foldl]. rewrite IH, call_listener_lookup. cbn [target].
    destruct (decide (q = p)) as [->|Hqp].
    + rewrite (decide_True (P := OnceResolve p ∈ OnceResolve p :: ls))
        by apply list_elem_of_here.
      case_decide; by rewrite ?fulfil_idem.
    + destruct (decide (OnceResolve q ∈ ls)) as [Hin|Hout].
      * rewrite decide_True; [done|]. by apply list_elem_of_further.
      * rewrite decide_False; [done|].
        intros [?|?]%elem_of_cons; [congruence|done].
Qed.

Lemma fire_lookup_hit args ls w q :
  OnceResolve q ∈ ls ->
  promises (foldl (call_listener args) w ls) !! q
  = fulfil (hd VUndefined args) (promises w !! q).
Proof. intros. by rewrite fire_lookup, decide_True. Qed.

Lemma fire_lookup_miss args ls w q :
  OnceResolve q ∉ ls ->
  promises (foldl (call_listener args) w ls) !! q = promises w !! q.
Proof. intros. by rewrite fire_lookup, decide_False. Qed.
End promise_facts.

Section firing.
Implicit Types (w : Process) (p q : PromiseId).

Lemma waiters_at_sdks w w' i n :
  sdks w' = sdks w -> waiters_at w' i n = waiters_at w i n.
Proof. unfold waiters_at. by intros ->. Qed.

Lemma all_waiters_sdks w w' n :
  sdks w' = sdks w -> all_waiters w' n = all_waiters w n.
Proof. unfold all_waiters. by intros ->. Qed.

Lemma called_app l1 l2 : called (l1 ++ l2) = called l1 ++ called l2.
Proof. apply omap_app. Qed.

Lemma registered_app l1 l2 :
  registered (l1 ++ l2) = registered l1 ++ registered l2.
Proof. apply omap_app. Qed.

Lemma called_calls v (ls : list Listener) :
  called ((fun l => Called (target l) v) <$> ls) = target <$> ls.
Proof.
  induction ls as [|l ls IH]; [done|].
  rewrite !fmap_cons. unfold called in *. cbn [omap list_omap].
  by rewrite IH.
Qed.

Lemma registered_calls v (ls : list Listener) :
  registered ((fun l => Called (target l) v) <$> ls) = [].
Proof. by induction ls. Qed.

Lemma elem_of_targets q (ls : list Listener) :
  q ∈ target <$> ls <-> OnceResolve q ∈ ls.
Proof.
  rewrite list_elem_of_fmap. split.
  - intros ([p] & -> & Hl). done.
  - intros Hl. by exists (OnceResolve q).
Qed.

Lemma jobEventEmitter_emit_eq this name args w :
  jobEventEmitter_emit this name args w
  = match sdks w !! this with
    | Some _ => Some (fire_at name args w this)
    | None => None
    end.
Proof.
  unfold jobEventEmitter_emit, fire_at, waiters_at.
  by destruct (sdks w !! this).
Qed.

Lemma fire_at_frame name args w this :
  jobId (fire_at name args w this) = jobId w
  /\ stores (fire_at name args w this) = stores w
  /\ sdks (fire_at name args w this)
     = alter (set_emitter (delete name)) this (sdks w)
  /\ length (promises (fire_at name args w this)) = length (promises w)
  /\ log (fire_at name args w this)
     = log w ++ ((fun l => Called (target l) (hd VUndefined args))
                   <$> waiters_at w this name).
Proof.
  unfold fire_at.
  destruct (fire_frame args (waiters_at w this name)
              (set_sdks (alter (set_emitter (delete name)) this) w))
    as (-> & -> & -> & -> & ->). done.
Qed.

Lemma waiters_at_fire name args w this i n :
  waiters_at (fire_at name args w this) i n
  = if decide (i = this /\ n = name) then [] else waiters_at w i n.
Proof.
  rewrite <- waiters_at_deleted. apply waiters_at_sdks.
  by destruct (fire_at_frame name args w this) as (_ & _ & -> & _).
Qed.

Lemma waiter_fire name args w this i n q :
  waiter (fire_at name args w this) i n q
  <-> waiter w i n q /\ ~ (i = this /\ n = name).
Proof.
  unfold waiter. rewrite waiters_at_fire. case_decide as H.
  - split; [by intros ?%elem_of_nil|]. by intros [_ []].
  - split; [intros ?; by split | by intros [? _]].
Qed.

Lemma promises_fire name args w this q :
  promises (fire_at name args w this) !! q
  = if decide (OnceResolve q ∈ waiters_at w this name)
    then fulfil (hd VUndefined args) (promises w !! q)
    else promises w !! q.
Proof. unfold fire_at. by rewrite fire_lookup. Qed.

Lemma length_all_waiters_fire name args w this n :
  (length (all_waiters (fire_at name args w this) n)
   <= length (all_waiters w n))%nat.
Proof.
  destruct (fire_at_frame name args w this) as (_ & _ & Hs & _).
  destruct (sdks w !! this) as [s|] eqn:Hthis.
  - rewrite (all_waiters_sdks
               (set_sdks (alter (set_emitter (delete name)) this) w)) by done.
    rewrite (all_waiters_alter _ this w n s Hthis).
    rewrite (all_waiters_split this w n s Hthis), !length_app.
    rewrite listeners_delete. case_decide; simpl; lia.
  - rewrite (all_waiters_sdks w); [done|]. rewrite Hs.
    apply list_eq. intros i. destruct (decide (this = i)) as [<-|Hi].
    + rewrite list_lookup_alter_eq, Hthis. done.
    + by rewrite list_lookup_alter_ne.
Qed.

Lemma short_NoDup {A} (l : list A) : (length l <= 1)%nat -> NoDup l.
Proof.
  destruct l as [|x [|y l]]; simpl; intros Hl.
  - constructor.
  - apply NoDup_singleton.
  - lia.
Qed.

Lemma wf_fire name args w this : wf w -> wf (fire_at name args w this).
Proof.
  intros Hwf.
  destruct (fire_at_frame name args w this) as (Hj & Hst & Hsd & Hlen & Hlog).
  assert (Hold : forall i n q, waiter (fire_at name args w this) i n q ->
                               waiter w i n q).
  { intros i n q Hw. by apply waiter_fire in Hw as [? _]. }
  assert (Hcalled : called (log (fire_at name args w this))
                    = called (log w) ++ (target <$> waiters_at w this name)).
  { by rewrite Hlog, called_app, called_calls. }
  split.
  - rewrite Hj. apply Hwf.
  - intros i n q Hw. rewrite Hj. eapply wf_names; eauto.
  - intros i n q Hw. rewrite Hlen. eapply wf_targets; eauto.
  - intros i n q i' n' H1 H2. eapply wf_place; eauto.
  - intros n. etrans; [apply length_all_waiters_fire|]. by apply wf_single.
  - intros q i n. rewrite Hcalled. intros [Hq|Hq]%elem_of_app Hw.
    + eapply wf_called; eauto.
    + apply elem_of_targets in Hq.
      apply waiter_fire in Hw as [Hw Hne]. apply Hne.
      eapply (wf_place w Hwf); eauto.
  - intros q. rewrite Hcalled, Hlen. intros [Hq|Hq]%elem_of_app.
    + by apply wf_called_bound.
    + apply elem_of_targets in Hq. eapply wf_targets; eauto.
  - rewrite Hcalled. apply NoDup_app. split_and!.
    + by apply wf_called_once.
    + intros q Hq Hq'. apply elem_of_targets in Hq'.
      eapply wf_called; eauto.
    + apply short_NoDup. rewrite length_fmap.
      etrans; [apply length_waiters_at|]. by apply wf_single.
  - intros j σ i. rewrite Hst, Hsd, length_alter. by apply wf_subscribers.
Qed.
End firing.

Section operations.
Implicit Types (w : Process) (p q : PromiseId).

Lemma toString_inj k k' : toString k = toString k' -> k = k'.
Proof. apply (inj pretty). Qed.

(** An operation that leaves the emitters, the promises and the calls
    alone keeps the invariant. *)
Lemma wf_frame w w' :
  wf w ->
  jobId w' = jobId w ->
  (forall i n, waiters_at w' i n = waiters_at w i n) ->
  (forall n, all_waiters w' n = all_waiters w n) ->
  length (promises w') = length (promises w) ->
  called (log w') = called (log w) ->
  (forall j σ i, stores w' !! j = Some σ -> i ∈ subscribers σ ->
                 (i < length (sdks w'))%nat) ->
  wf w'.
Proof.
  intros Hwf Hj Hat Hall Hlen Hlog Hsub.
  assert (Hw : forall i n q, waiter w' i n q <-> waiter w i n q).
  { intros i n q. unfold waiter. by rewrite Hat. }
  split.
  - rewrite Hj. apply Hwf.
  - intros i n q ?%Hw. rewrite Hj. eapply wf_names; eauto.
  - intros i n q ?%Hw. rewrite Hlen. eapply wf_targets; eauto.
  - intros i n q i' n' ?%Hw ?%Hw. eapply wf_place; eauto.
  - intros n. rewrite Hall. by apply wf_single.
  - intros q i n. rewrite Hlog. intros Hq ?%Hw. eapply wf_called; eauto.
  - intros q. rewrite Hlog, Hlen. by apply wf_called_bound.
  - rewrite Hlog. by apply wf_called_once.
  - done.
Qed.

Lemma wf_init : wf init.
Proof.
  split; simpl; try done.
  - intros i n q Hw. by apply elem_of_nil in Hw.
  - intros i n q Hw. by apply elem_of_nil in Hw.
  - intros i n q i' n' Hw. by apply elem_of_nil in Hw.
  - intros n. simpl. lia.
  - intros q i n Hq. by apply elem_of_nil in Hq.
  - intros q Hq. by apply elem_of_nil in Hq.
  - constructor.
Qed.

Lemma wf_new_Sdk url auth w : wf w -> wf (snd (new_Sdk url auth w)).
Proof.
  intros Hwf. apply (wf_frame w); try done.
  - intros i n. unfold waiters_at. simpl.
    destruct (decide (i < length (sdks w))%nat) as [Hi|Hi].
    + by rewrite lookup_app_l.
    + rewrite (lookup_ge_None_2 (sdks w)) by lia.
      rewrite lookup_app_r by lia.
      destruct (i - length (sdks w))%nat as [|[|?]]; done.
  - intros n. unfold all_waiters. simpl. rewrite bind_app. simpl.
    by rewrite !app_nil_r.
  - intros j σ i Hj Hi. simpl in *. rewrite length_app.
    pose proof (wf_subscribers w Hwf j σ i Hj Hi). lia.
Qed.

Lemma wf_createStore st w : wf w -> wf (snd (createStore st w)).
Proof.
  intros Hwf. apply (wf_frame w); try done.
  intros j σ i Hj Hi. simpl in *.
  apply lookup_app_Some in Hj as [Hj|[_ Hj]].
  - by eapply wf_subscribers.
  - destruct (j - length (stores w))%nat as [|[|?]]; simplify_eq/=.
    by apply elem_of_nil in Hi.
Qed.

Lemma wf_setupRedux this store sock w w' :
  wf w -> setupRedux this store sock w = Some w' -> wf w'.
Proof.
  intros Hwf. unfold setupRedux.
  destruct (sdks w !! this) as [s|] eqn:Hs; [|done].
  destruct (stores w !! store) as [σ|] eqn:Hσ; [|done].
  simpl. intros [= <-]. apply (wf_frame w); try done.
  - intros i n. unfold waiters_at. simpl.
    destruct (decide (this = i)) as [<-|Hi].
    + rewrite list_lookup_alter_eq, Hs. done.
    + by rewrite list_lookup_alter_ne.
  - intros n. unfold all_waiters. simpl.
    rewrite (bind_alter _ _ _ _ s Hs). simpl.
    by rewrite <- (all_waiters_split this w n s Hs).
  - intros j σ' i Hj Hi. simpl in *. rewrite length_alter.
    destruct (decide (store = j)) as [<-|Hne].
    + rewrite list_lookup_alter_eq, Hσ in Hj. simplify_eq/=.
      apply elem_of_app in Hi as [Hi|Hi].
      * by eapply wf_subscribers.
      * apply list_elem_of_singleton in Hi as ->. by eapply lookup_lt_Some.
    + rewrite list_lookup_alter_ne in Hj by done. by eapply wf_subscribers.
Qed.
End operations.

Section emit_facts.
Implicit Types (w : Process) (p q : PromiseId).

Lemma increment_exact n : (n < MAX_SAFE)%Z -> increment n = (n + 1)%Z.
Proof. intros Hn. unfold increment. by rewrite (proj2 (Z.ltb_lt _ _) Hn). Qed.

Lemma increment_stuck n : (MAX_SAFE <= n)%Z -> increment n = n.
Proof. intros Hn. unfold increment. by rewrite (proj2 (Z.ltb_ge _ _) Hn). Qed.

Lemma increment_le n : (n <= increment n)%Z.
Proof. unfold increment. destruct (n <? MAX_SAFE)%Z; lia. Qed.

Lemma step_Emit this action args w w' :
  step (Emit this action args) w = Some w' ->
  (jobId w + 1 < MAX_SAFE)%Z
  /\ exists p, emit this action args w = Some (p, w').
Proof.
  unfold step, in_range.
  destruct (Z.ltb_spec (jobId w + 1) MAX_SAFE) as [Hlt|Hge]; [|done].
  simpl. destruct (emit this action args w) as [[p w'']|]; [|done].
  simpl. intros [= <-]. eauto.
Qed.

Lemma step_Emit_intro this action args w p w' :
  (jobId w + 1 < MAX_SAFE)%Z ->
  emit this action args w = Some (p, w') ->
  step (Emit this action args) w = Some w'.
Proof.
  intros Hlt He. unfold step, in_range.
  rewrite (proj2 (Z.ltb_lt _ _) Hlt). simpl. by rewrite He.
Qed.

Lemma lookup_snoc_length {A} (l : list A) x : (l ++ [x]) !! length l = Some x.
Proof. by rewrite lookup_app_r, Nat.sub_diag by lia. Qed.

Lemma insert_snoc_length {A} (l : list A) x y :
  <[length l := y]> (l ++ [x]) = l ++ [y].
Proof.
  rewrite <- (Nat.add_0_r (length l)) at 1. by rewrite insert_app_r.
Qed.

(** What one call of [emit] does to the process. *)
Lemma emit_spec this action args w s :
  sdks w !! this = Some s ->
  exists w',
    emit this action args w = Some (length (promises w), w')
    /\ jobId w' = increment (jobId w)
    /\ stores w' = stores w
    /\ sdks w' = alter (set_emitter (ee_once (toString (jobId w))
                                       (OnceResolve (length (promises w)))))
                       this (sdks w)
    /\ promises w'
       = promises w ++
         [match socket s with
          | Some _ => Pending
          | None => Rejected (TypeError "Cannot read property 'emit' of undefined")
          end]
    /\ log w'
       = log w ++
         Registered this (toString (jobId w)) (length (promises w)) ::
         match socket s with
         | Some sock =>
             [Sent sock (VStr action
                           :: VObj [("jobId"%string, VNum (jobId w))] :: args)]
         | None => []
         end.
Proof.
  intros Hs. unfold emit. rewrite Hs. simpl.
  eexists. split; [reflexivity|].
  destruct (socket s) as [sock|]; simpl.
  - split_and!; try done. by rewrite <- app_assoc.
  - unfold reject, settle. simpl. rewrite lookup_snoc_length. simpl.
    by rewrite insert_snoc_length.
Qed.

Lemma emit_is_Some this action args w :
  is_Some (sdks w !! this) -> is_Some (emit this action args w).
Proof.
  intros [s Hs]. destruct (emit_spec this action args w s Hs) as (w' & -> & _).
  done.
Qed.

Lemma emit_inv this action args w p w' :
  emit this action args w = Some (p, w') ->
  exists s, sdks w !! this = Some s /\ p = length (promises w).
Proof.
  destruct (sdks w !! this) as [s|] eqn:Hs.
  - destruct (emit_spec this action args w s Hs) as (w'' & -> & _).
    intros [= <- <-]. eauto.
  - unfold emit. by rewrite Hs.
Qed.

Lemma waiters_at_emit this action args w p w' i n :
  emit this action args w = Some (p, w') ->
  waiters_at w' i n
  = if decide (i = this /\ n = toString (jobId w))
    then waiters_at w i n ++ [OnceResolve p] else waiters_at w i n.
Proof.
  intros He. destruct (emit_inv _ _ _ _ _ _ He) as (s & Hs & ->).
  destruct (emit_spec this action args w s Hs)
    as (w'' & He' & _ & _ & Hsd & _).
  rewrite He in He'. simplify_eq.
  rewrite <- (waiters_at_once this _ _ w) by eauto.
  by apply waiters_at_sdks.
Qed.

Lemma waiter_emit this action args w p w' i n q :
  emit this action args w = Some (p, w') ->
  waiter w' i n q
  <-> waiter w i n q \/ (i = this /\ n = toString (jobId w) /\ q = p).
Proof.
  intros He. unfold waiter. rewrite (waiters_at_emit _ _ _ _ _ _ _ _ He).
  case_decide as Hd.
  - rewrite elem_of_app, list_elem_of_singleton. destruct Hd as [-> ->].
    split.
    + intros [Hold|Hnew]; [by left|]. right. split_and!; congruence.
    + intros [Hold|(_ & _ & ->)]; [by left|by right].
  - split; [auto|]. intros [?|(-> & -> & _)]; [done|]. by destruct Hd.
Qed.

Lemma no_waiter_at_counter w n :
  wf w -> n = toString (jobId w) -> all_waiters w n = [].
Proof.
  intros Hwf ->. destruct (all_waiters w _) as [|[q] ls] eqn:Hall; [done|].
  assert (Hin : OnceResolve q ∈ all_waiters w (toString (jobId w))).
  { rewrite Hall. apply list_elem_of_here. }
  apply elem_of_all_waiters in Hin as [i Hi].
  destruct (wf_names w Hwf i _ q Hi) as (k & Hk%toString_inj & Hlt). lia.
Qed.

Lemma wf_emit this action args w p w' :
  wf w -> (jobId w < MAX_SAFE)%Z ->
  emit this action args w = Some (p, w') -> wf w'.
Proof.
  intros Hwf Hexact He.
  destruct (emit_inv _ _ _ _ _ _ He) as (s & Hs & ->).
  destruct (emit_spec this action args w s Hs)
    as (w'' & He' & Hj & Hst & Hsd & Hpr & Hlog).
  rewrite (increment_exact _ Hexact) in Hj.
  rewrite He in He'. symmetry in He'. simplify_eq.
  assert (Hw := fun i n q => waiter_emit this action args w _ w' i n q He).
  assert (Hlen : length (promises w') = S (length (promises w))).
  { rewrite Hpr, length_app. simpl. lia. }
  assert (Hcalled : called (log w') = called (log w)).
  { rewrite Hlog, called_app.
    destruct (socket s); simpl; by rewrite app_nil_r. }
  split.
  - rewrite Hj. pose proof (wf_counter w Hwf). lia.
  - intros i n q [Hold|(-> & -> & ->)]%Hw; rewrite Hj.
    + destruct (wf_names w Hwf i n q Hold) as (k & -> & Hk).
      exists k. split; [done|lia].
    + exists (jobId w). pose proof (wf_counter w Hwf). split; [done|lia].
  - intros i n q [Hold|(-> & -> & ->)]%Hw; rewrite Hlen; [|lia].
    pose proof (wf_targets w Hwf i n q Hold). lia.
  - intros i n q i' n' [H1|(-> & -> & ->)]%Hw [H2|(-> & -> & Hq)]%Hw.
    + eapply wf_place; eauto.
    + subst q. pose proof (wf_targets w Hwf _ _ _ H1). lia.
    + pose proof (wf_targets w Hwf _ _ _ H2). lia.
    + done.
  - intros n.
    rewrite (all_waiters_sdks
               (set_sdks (alter (set_emitter
                                   (ee_once (toString (jobId w))
                                      (OnceResolve (length (promises w)))))
                                this) w)) by done.
    rewrite (all_waiters_alter _ this w n s Hs), listeners_once.
    pose proof (wf_single w Hwf n) as Hone.
    rewrite (all_waiters_split this w n s Hs) in Hone.
    case_decide as Hn; [|done].
    pose proof (no_waiter_at_counter w n Hwf Hn) as Hnil.
    rewrite (all_waiters_split this w n s Hs) in Hnil.
    apply app_eq_nil in Hnil as [-> [-> ->]%app_eq_nil]. simpl. lia.
  - intros q i n. rewrite Hcalled.
    intros Hq [Hold|(-> & -> & ->)]%Hw.
    + eapply wf_called; eauto.
    + pose proof (wf_called_bound w Hwf _ Hq). lia.
  - intros q. rewrite Hcalled, Hlen. intros Hq.
    pose proof (wf_called_bound w Hwf _ Hq). lia.
  - rewrite Hcalled. by apply wf_called_once.
  - intros j σ i. rewrite Hst, Hsd, length_alter. by apply wf_subscribers.
Qed.
End emit_facts.

Section dispatch_facts.
Implicit Types (w : Process) (p q : PromiseId) (subs : list nat).

Lemma fire_all_frame name args subs w :
  jobId (foldl (fire_at name args) w subs) = jobId w
  /\ stores (foldl (fire_at name args) w subs) = stores w
  /\ length (sdks (foldl (fire_at name args) w subs)) = length (sdks w)
  /\ length (promises (foldl (fire_at name args) w subs)) = length (promises w)
  /\ registered (log (foldl (fire_at name args) w subs)) = registered (log w).
Proof.
  revert w. induction subs as [|this subs IH]; intros w; [done|].
  cbn [foldl]. destruct (IH (fire_at name args w this)) as (-> & -> & -> & -> & ->).
  destruct (fire_at_frame name args w this) as (-> & -> & -> & -> & ->).
  by rewrite length_alter, registered_app, registered_calls, app_nil_r.
Qed.

Lemma waiters_at_fire_all name args subs w i n :
  waiters_at (foldl (fire_at name args) w subs) i n
  = if decide (i ∈ subs /\ n = name) then [] else waiters_at w i n.
Proof.
  revert w. induction subs as [|this subs IH]; intros w.
  - rewrite decide_False; [done|]. by intros [?%elem_of_nil _].
  - cbn [foldl]. rewrite IH, waiters_at_fire.
    destruct (decide (i ∈ subs /\ n = name)) as [[Hi ->]|Hout].
    + rewrite decide_True; [done|]. split; [by apply list_elem_of_further|done].
    + destruct (decide (i = this /\ n = name)) as [[-> ->]|Hne].
      * rewrite decide_True; [done|]. split; [apply list_elem_of_here|done].
      * rewrite decide_False; [done|].
        intros [[->|Hi]%elem_of_cons ->]; [by apply Hne|by apply Hout].
Qed.

Lemma wf_fire_all name args subs w :
  wf w -> wf (foldl (fire_at name args) w subs).
Proof.
  revert w. induction subs as [|this subs IH]; intros w Hwf; [done|].
  cbn [foldl]. by apply IH, wf_fire.
Qed.

(** Firing settles nothing but pending promises, and those with [v]. *)
Lemma promises_fire_all_mono name args subs w q :
  promises (foldl (fire_at name args) w subs) !! q = promises w !! q
  \/ promises (foldl (fire_at name args) w subs) !! q
     = fulfil (hd VUndefined args) (promises w !! q).
Proof.
  revert w. induction subs as [|this subs IH]; intros w; [by left|].
  cbn [foldl]. destruct (IH (fire_at name args w this)) as [->| ->];
    rewrite promises_fire; case_decide; rewrite ?fulfil_idem; auto.
Qed.

Lemma promises_fire_all_miss name args subs w q :
  (forall i, i ∈ subs -> OnceResolve q ∉ waiters_at w i name) ->
  promises (foldl (fire_at name args) w subs) !! q = promises w !! q.
Proof.
  revert w. induction subs as [|this subs IH]; intros w Hmiss; [done|].
  cbn [foldl]. rewrite IH.
  - rewrite promises_fire, decide_False; [done|].
    apply Hmiss, list_elem_of_here.
  - intros i Hi. rewrite waiters_at_fire.
    case_decide; [apply not_elem_of_nil|]. by apply Hmiss, list_elem_of_further.
Qed.

Lemma promises_fire_all_hit name args subs w i q :
  i ∈ subs -> OnceResolve q ∈ waiters_at w i name ->
  promises (foldl (fire_at name args) w subs) !! q
  = fulfil (hd VUndefined args) (promises w !! q).
Proof.
  revert w. induction subs as [|this subs IH]; intros w Hi Hq;
    [by apply elem_of_nil in Hi|].
  cbn [foldl].
  destruct (decide (OnceResolve q ∈ waiters_at w this name)) as [Hthis|Hthis].
  - destruct (promises_fire_all_mono name args subs
                (fire_at name args w this) q) as [->| ->];
      rewrite promises_fire, decide_True by done; by rewrite ?fulfil_idem.
  - apply elem_of_cons in Hi as [->|Hi]; [done|].
    rewrite IH; [by rewrite promises_fire, decide_False| done |].
    rewrite waiters_at_fire, decide_False; [done|].
    intros [-> _]. done.
Qed.

Lemma store_listener_eq this store w σ :
  stores w !! store = Some σ ->
  store_listener this store w
  = match job (getState σ) with
    | Some k => jobEventEmitter_emit this (toString k) [] w
    | None => Some w
    end.
Proof.
  intros Hσ. unfold store_listener. rewrite Hσ. simpl.
  destruct (job (getState σ)) as [k|]; [|done]. simpl.
  by destruct (k =? 0)%Z.
Qed.

Lemma notify_job store subs w σ k :
  stores w !! store = Some σ -> job (getState σ) = Some k ->
  (forall i, i ∈ subs -> (i < length (sdks w))%nat) ->
  notify store subs w = Some (foldl (fire_at (toString k) []) w subs).
Proof.
  revert w. induction subs as [|this subs IH]; intros w Hσ Hk Hsubs; [done|].
  cbn [notify foldl].
  rewrite (store_listener_eq _ _ _ σ Hσ), Hk, jobEventEmitter_emit_eq.
  destruct (lookup_lt_is_Some_2 (sdks w) this) as [s ->];
    [apply Hsubs, list_elem_of_here|].
  simpl.
  destruct (fire_at_frame (toString k) [] w this) as (_ & Hst & Hsd & _).
  apply IH; [by rewrite Hst|done|].
  intros i Hi. rewrite Hsd, length_alter. by apply Hsubs, list_elem_of_further.
Qed.

Lemma notify_no_job store subs w σ :
  stores w !! store = Some σ -> job (getState σ) = None ->
  notify store subs w = Some w.
Proof.
  intros Hσ Hk. induction subs as [|this subs IH]; [done|].
  cbn [notify]. by rewrite (store_listener_eq _ _ _ σ Hσ), Hk.
Qed.

(** The store with its new state, before the subscribers run. *)
Lemma dispatch_spec store st w σ :
  wf w -> stores w !! store = Some σ ->
  let w1 := set_stores (alter (fun σ => {| getState := st;
                                           subscribers := subscribers σ |})
                              store) w in
  wf w1
  /\ dispatch store st w
     = Some match job st with
            | Some k => foldl (fire_at (toString k) []) w1 (subscribers σ)
            | None => w1
            end.
Proof.
  intros Hwf Hσ w1.
  assert (Hσ1 : stores w1 !! store
                = Some {| getState := st; subscribers := subscribers σ |}).
  { subst w1. simpl. by rewrite list_lookup_alter_eq, Hσ. }
  assert (Hwf1 : wf w1).
  { apply (wf_frame w); try done.
    intros j σ' i Hj Hi. subst w1. simpl in *.
    destruct (decide (store = j)) as [<-|Hne].
    - rewrite list_lookup_alter_eq, Hσ in Hj. simplify_eq/=.
      by eapply wf_subscribers.
    - rewrite list_lookup_alter_ne in Hj by done. by eapply wf_subscribers. }
  split; [done|]. unfold dispatch. rewrite Hσ. simpl. fold w1.
  destruct (job st) as [k|] eqn:Hk.
  - apply (notify_job _ _ _ _ k Hσ1); [done|].
    intros i Hi. by eapply (wf_subscribers w Hwf).
  - by apply (notify_no_job _ _ _ _ Hσ1).
Qed.

Lemma wf_dispatch store st w w' :
  wf w -> dispatch store st w = Some w' -> wf w'.
Proof.
  intros Hwf Hd. destruct (stores w !! store) as [σ|] eqn:Hσ.
  - destruct (dispatch_spec store st w σ Hwf Hσ) as [Hwf1 Heq].
    rewrite Hd in Heq. simplify_eq.
    destruct (job st); [by apply wf_fire_all|done].
  - unfold dispatch in Hd. by rewrite Hσ in Hd.
Qed.

Lemma wf_step op w w' : wf w -> step op w = Some w' -> wf w'.
Proof.
  intros Hwf. destruct op as [url auth|st|this store sock|this action args|store st].
  - simpl. intros [= <-]. by apply wf_new_Sdk.
  - simpl. intros [= <-]. by apply wf_createStore.
  - by apply wf_setupRedux.
  - intros (Hlt & p & He)%step_Emit.
    apply (wf_emit _ _ _ _ _ _ Hwf ltac:(lia) He).
  - by apply wf_dispatch.
Qed.

Lemma wf_run ops w w' : wf w -> run ops w = Some w' -> wf w'.
Proof.
  revert w. induction ops as [|op ops IH]; intros w Hwf; simpl.
  - by intros [= <-].
  - destruct (step op w) as [w1|] eqn:Hstep; [|done]. simpl.
    apply IH. by eapply wf_step.
Qed.

Lemma wf_reachable ops w : run ops init = Some w -> wf w.
Proof. apply wf_run, wf_init. Qed.
End dispatch_facts.

Section waiting.
Implicit Types (w : Process) (p q : PromiseId).

Lemma waiters_at_new_Sdk url auth w i n :
  waiters_at (snd (new_Sdk url auth w)) i n = waiters_at w i n.
Proof.
  unfold waiters_at. simpl.
  destruct (decide (i < length (sdks w))%nat) as [Hi|Hi].
  - by rewrite lookup_app_l.
  - rewrite (lookup_ge_None_2 (sdks w)) by lia.
    rewrite lookup_app_r by lia.
    destruct (i - length (sdks w))%nat as [|[|?]]; done.
Qed.

Lemma setupRedux_frame this store sock w w' :
  setupRedux this store sock w = Some w' ->
  jobId w' = jobId w /\ promises w' = promises w /\ log w' = log w
  /\ (forall i n, waiters_at w' i n = waiters_at w i n)
  /\ (forall s i, subscribed w s i -> subscribed w' s i).
Proof.
  unfold setupRedux.
  destruct (sdks w !! this) as [s|] eqn:Hs; [|done].
  destruct (stores w !! store) as [σ|] eqn:Hσ; [|done].
  simpl. intros [= <-]. split_and!; try done.
  - intros i n. unfold waiters_at. simpl.
    destruct (decide (this = i)) as [<-|Hi].
    + rewrite list_lookup_alter_eq, Hs. done.
    + by rewrite list_lookup_alter_ne.
  - intros s' i (σ' & Hσ' & Hi). unfold subscribed. simpl.
    destruct (decide (store = s')) as [<-|Hne].
    + rewrite list_lookup_alter_eq, Hσ'. simpl. eexists. split; [done|].
      simpl. apply elem_of_app. by left.
    + rewrite list_lookup_alter_ne by done. eauto.
Qed.

Lemma emit_frame this action args w p w' :
  emit this action args w = Some (p, w') ->
  jobId w' = increment (jobId w) /\ stores w' = stores w
  /\ length (sdks w') = length (sdks w)
  /\ (forall q, (q < length (promises w))%nat ->
                promises w' !! q = promises w !! q)
  /\ (forall i, socket <$> sdks w' !! i = socket <$> sdks w !! i).
Proof.
  intros He. destruct (emit_inv _ _ _ _ _ _ He) as (s & Hs & ->).
  destruct (emit_spec this action args w s Hs)
    as (w'' & He' & Hj & Hst & Hsd & Hpr & Hlog).
  rewrite He in He'. symmetry in He'. simplify_eq.
  split_and!; try done.
  - by rewrite Hsd, length_alter.
  - intros q Hq. by rewrite Hpr, lookup_app_l.
  - intros i. rewrite Hsd. destruct (decide (this = i)) as [<-|Hi].
    + rewrite list_lookup_alter_eq. by destruct (sdks w !! this).
    + by rewrite list_lookup_alter_ne.
Qed.

Lemma dispatch_frame store st w w' :
  wf w -> dispatch store st w = Some w' ->
  jobId w' = jobId w
  /\ length (promises w') = length (promises w)
  /\ registered (log w') = registered (log w)
  /\ (forall s i, subscribed w s i -> subscribed w' s i)
  /\ (forall q, promises w' !! q = promises w !! q
                \/ promises w' !! q = fulfil VUndefined (promises w !! q)).
Proof.
  intros Hwf Hd. destruct (stores w !! store) as [σ|] eqn:Hσ;
    [|unfold dispatch in Hd; by rewrite Hσ in Hd].
  destruct (dispatch_spec store st w σ Hwf Hσ) as [Hwf1 Heq].
  rewrite Hd in Heq. simplify_eq.
  set (w1 := set_stores _ w) in *.
  assert (Hsub1 : forall s i, subscribed w s i -> subscribed w1 s i).
  { intros s i (σ' & Hσ' & Hi). unfold subscribed. subst w1. simpl.
    destruct (decide (store = s)) as [<-|Hne].
    - rewrite list_lookup_alter_eq, Hσ'. simpl. eexists. split; [done|]. done.
    - rewrite list_lookup_alter_ne by done. eauto. }
  destruct (job st) as [k|]; [|by split_and!; auto].
  destruct (fire_all_frame (toString k) [] (subscribers σ) w1)
    as (Hj & Hst & _ & Hlen & Hreg).
  split_and!; try done.
  - intros s i Hs. apply Hsub1 in Hs as (σ' & Hσ' & Hi).
    exists σ'. by rewrite Hst.
  - intros q. apply (promises_fire_all_mono (toString k) [] _ w1 q).
Qed.

(** A later call leaves a call that waits waiting. *)
Lemma emit_keeps_awaiting this action args w p' w' i k p :
  wf w -> awaiting w i k p -> emit this action args w = Some (p', w') ->
  awaiting w' i k p.
Proof.
  intros Hwf [Hat Hp] He.
  assert (Hwaiter : waiter w i (toString k) p).
  { unfold waiter. rewrite Hat. apply list_elem_of_here. }
  destruct (emit_frame _ _ _ _ _ _ He) as (_ & _ & _ & Hpr & _).
  split.
  - rewrite (waiters_at_emit _ _ _ _ _ _ _ _ He), decide_False; [done|].
    intros [_ Hk%toString_inj].
    destruct (wf_names w Hwf _ _ _ Hwaiter) as (k' & Hk'%toString_inj & ?).
    lia.
  - rewrite Hpr; [done|]. by eapply wf_targets.
Qed.

(** A call keeps waiting through every operation that does not report
    its identifier. *)
Lemma step_keeps_awaiting op w w' i k p :
  wf w -> awaiting w i k p -> step op w = Some w' -> ~ reports k op ->
  awaiting w' i k p.
Proof.
  intros Hwf [Hat Hp] Hstep Hquiet.
  assert (Hwaiter : waiter w i (toString k) p).
  { unfold waiter. rewrite Hat. apply list_elem_of_here. }
  destruct op as [url auth|st|this store sock|this action args|store st];
    [simpl in Hstep..| |simpl in Hstep].
  - injection Hstep as <-. split; [|done].
    rewrite <- Hat. apply (waiters_at_new_Sdk url auth w).
  - injection Hstep as <-. done.
  - destruct (setupRedux_frame _ _ _ _ _ Hstep) as (_ & Hpr & _ & Hw & _).
    split; [by rewrite Hw|by rewrite Hpr].
  - apply step_Emit in Hstep as (_ & p' & He).
    by apply (emit_keeps_awaiting this action args w p' w').
  - destruct (stores w !! store) as [σ|] eqn:Hσ;
      [|unfold dispatch in Hstep; by rewrite Hσ in Hstep].
    destruct (dispatch_spec store st w σ Hwf Hσ) as [Hwf1 Heq].
    rewrite Hstep in Heq. simplify_eq.
    set (w1 := set_stores _ w) in *.
    destruct (job st) as [k'|] eqn:Hjob; [|done].
    assert (Hne : toString k <> toString k').
    { intros ?%toString_inj. subst k'. by apply Hquiet. }
    split.
    + rewrite waiters_at_fire_all, decide_False; [done|]. by intros [_ ?].
    + rewrite promises_fire_all_miss; [done|].
      intros j _ Hj. apply Hne.
      by destruct (wf_place w Hwf i (toString k) p j (toString k')
                     Hwaiter Hj).
Qed.


(** The reply to job [k], reported to a store the instance subscribed
    to, fulfils the promise of the call, with undefined. *)
Lemma dispatch_fires store st w i k p :
  wf w -> subscribed w store i -> awaiting w i k p -> job st = Some k ->
  exists w', dispatch store st w = Some w'
             /\ promises w' !! p = Some (Fulfilled VUndefined)
             /\ waiters_at w' i (toString k) = [].
Proof.
  intros Hwf (σ & Hσ & Hi) [Hat Hp] Hjob.
  destruct (dispatch_spec store st w σ Hwf Hσ) as [Hwf1 Heq].
  rewrite Hjob in Heq. eexists. split; [exact Heq|].
  set (w1 := set_stores _ w) in *. split.
  - rewrite (promises_fire_all_hit _ _ _ w1 i); [|done|].
    + change (promises w1) with (promises w). by rewrite Hp.
    + change (waiters_at w1 i (toString k)) with (waiters_at w i (toString k)).
      rewrite Hat. apply list_elem_of_here.
  - by rewrite waiters_at_fire_all, decide_True.
Qed.

Lemma step_keeps_settled op w w' p st :
  wf w -> promises w !! p = Some st -> st <> Pending ->
  step op w = Some w' -> promises w' !! p = Some st.
Proof.
  intros Hwf Hp Hst Hstep.
  destruct op as [url auth|st'|this store sock|this action args|store st'];
    [simpl in Hstep..| |simpl in Hstep].
  - by simplify_eq.
  - by simplify_eq.
  - destruct (setupRedux_frame _ _ _ _ _ Hstep) as (_ & -> & _). done.
  - apply step_Emit in Hstep as (_ & p' & He).
    destruct (emit_frame _ _ _ _ _ _ He) as (_ & _ & _ & Hpr & _).
    rewrite Hpr; [done|]. by eapply lookup_lt_Some.
  - destruct (dispatch_frame _ _ _ _ Hwf Hstep) as (_ & _ & _ & _ & Hmono).
    destruct (Hmono p) as [->| ->]; [done|]. rewrite Hp. by destruct st.
Qed.

Lemma step_subscribed op w w' store i :
  wf w -> subscribed w store i -> step op w = Some w' ->
  subscribed w' store i.
Proof.
  intros Hwf Hsub Hstep.
  destruct op as [url auth|st'|this store' sock|this action args|store' st'];
    [simpl in Hstep..| |simpl in Hstep].
  - by simplify_eq.
  - simplify_eq. destruct Hsub as (σ & Hσ & Hi). exists σ. split; [|done].
    simpl. rewrite lookup_app_l; [done|]. by eapply lookup_lt_Some.
  - destruct (setupRedux_frame _ _ _ _ _ Hstep) as (_ & _ & _ & _ & Hs). auto.
  - apply step_Emit in Hstep as (_ & p' & He).
    destruct (emit_frame _ _ _ _ _ _ He) as (_ & Hst & _).
    destruct Hsub as (σ & Hσ & Hi). exists σ. by rewrite Hst.
  - destruct (dispatch_frame _ _ _ _ Hwf Hstep) as (_ & _ & _ & Hs & _). auto.
Qed.

End waiting.

(** ** The counter *)

Lemma step_counter op w w' :
  wf w -> step op w = Some w' ->
  match op with
  | Emit _ _ _ =>
      jobId w' = (jobId w + 1)%Z
      /\ registered (log w') = registered (log w) ++ [toString (jobId w)]
  | _ => jobId w' = jobId w /\ registered (log w') = registered (log w)
  end.
Proof.
  intros Hwf Hstep.
  destruct op as [url auth|st|this store sock|this action args|store st];
    [simpl in Hstep..| |simpl in Hstep].
  - by simplify_eq.
  - by simplify_eq.
  - destruct (setupRedux_frame _ _ _ _ _ Hstep) as (-> & _ & -> & _). done.
  - apply step_Emit in Hstep as (Hlt & p & He).
    destruct (emit_inv _ _ _ _ _ _ He) as (s & Hs & ->).
    destruct (emit_spec this action args w s Hs)
      as (w'' & He' & Hj & _ & _ & _ & Hlog).
    rewrite He in He'. symmetry in He'. simplify_eq.
    rewrite increment_exact in Hj by lia.
    split; [done|]. rewrite Hlog, registered_app. by destruct (socket s).
  - destruct (dispatch_frame _ _ _ _ Hwf Hstep) as (-> & _ & -> & _). done.
Qed.

Lemma run_counter ops w w' :
  wf w -> run ops w = Some w' ->
  (jobId w <= jobId w')%Z
  /\ registered (log w')
     = registered (log w) ++ (toString <$> seqZ (jobId w) (jobId w' - jobId w)).
Proof.
  revert w. induction ops as [|op ops IH]; intros w Hwf Hrun; simpl in Hrun.
  - simplify_eq. rewrite Z.sub_diag. simpl. by rewrite app_nil_r.
  - destruct (step op w) as [w1|] eqn:Hstep; [|done]. simpl in Hrun.
    destruct (IH w1 (wf_step _ _ _ Hwf Hstep) Hrun) as [Hle ->].
    pose proof (step_counter op w w1 Hwf Hstep) as Hc.
    destruct op; destruct Hc as [Hj Hr]; rewrite Hr, Hj in *; try done.
    split; [lia|].
    rewrite (seqZ_cons (jobId w)) by lia. rewrite fmap_cons, <- app_assoc.
    simpl. do 4 f_equal; lia.
Qed.

(** ** Histories and the range of the counter *)

Lemma notify_jobId store subs w w' :
  notify store subs w = Some w' -> jobId w' = jobId w.
Proof.
  revert w. induction subs as [|this subs IH]; intros w; cbn [notify].
  - by intros [= <-].
  - destruct (store_listener this store w) as [w1|] eqn:Hl; [|done]. simpl.
    intros Hn. rewrite (IH _ Hn). clear IH Hn.
    unfold store_listener in Hl.
    destruct (stores w !! store) as [σ|]; [|done]. simpl in Hl.
    destruct (negb (job_truthy (job (getState σ)))
              && negb (job_is_zero (job (getState σ)))); [by simplify_eq|].
    destruct (job (getState σ)) as [k|]; [|done].
    rewrite jobEventEmitter_emit_eq in Hl.
    destruct (sdks w !! this); [|done]. injection Hl as <-.
    by destruct (fire_at_frame (toString k) [] w this) as (-> & _).
Qed.

Lemma dispatch_jobId store st w w' :
  dispatch store st w = Some w' -> jobId w' = jobId w.
Proof.
  unfold dispatch. destruct (stores w !! store) as [σ|]; [|done]. simpl.
  intros Hn. by rewrite (notify_jobId _ _ _ _ Hn).
Qed.

Lemma step_all_jobId op w w' :
  step_all op w = Some w' -> (jobId w <= jobId w')%Z.
Proof.
  destruct op as [url auth|st|this store sock|this action args|store st];
    simpl; intros Hstep.
  - by simplify_eq.
  - by simplify_eq.
  - destruct (setupRedux_frame _ _ _ _ _ Hstep) as (-> & _). done.
  - destruct (emit this action args w) as [[p w'']|] eqn:He; [|done].
    simpl in Hstep. injection Hstep as ->.
    destruct (emit_frame _ _ _ _ _ _ He) as (-> & _). apply increment_le.
  - by rewrite (dispatch_jobId _ _ _ _ Hstep).
Qed.

Lemma run_all_mono ops w w' :
  run_all ops w = Some w' -> (jobId w <= jobId w')%Z.
Proof.
  revert w. induction ops as [|op ops IH]; intros w; simpl.
  - by intros [= <-].
  - destruct (step_all op w) as [w1|] eqn:Hstep; [|done]. simpl. intros Hrun.
    pose proof (step_all_jobId _ _ _ Hstep). pose proof (IH _ Hrun). lia.
Qed.

Lemma step_step_all op w w' : step op w = Some w' -> step_all op w = Some w'.
Proof. destruct op; try done. unfold step. by destruct (in_range w). Qed.

Lemma run_run_all ops w w' : run ops w = Some w' -> run_all ops w = Some w'.
Proof.
  revert w. induction ops as [|op ops IH]; intros w; simpl; [done|].
  destruct (step op w) as [w1|] eqn:Hstep; [|done]. simpl.
  rewrite (step_step_all _ _ _ Hstep). simpl. apply IH.
Qed.

(** A history that ends with the counter below 2^53 is one in which it
    counted all along. *)
Lemma run_all_run ops w w' :
  run_all ops w = Some w' -> (jobId w' < MAX_SAFE)%Z -> run ops w = Some w'.
Proof.
  revert w. induction ops as [|op ops IH]; intros w; simpl; [done|].
  destruct (step_all op w) as [w1|] eqn:Hstep; [|done]. simpl.
  intros Hrun Hlt.
  assert (Hs : step op w = Some w1).
  { destruct op as [| | |this action args|]; try done.
    unfold step, in_range.
    pose proof (run_all_mono _ _ _ Hrun) as Hmono.
    simpl in Hstep.
    destruct (emit this action args w) as [[p w'']|] eqn:He; [|done].
    simpl in Hstep. injection Hstep as ->.
    destruct (emit_frame _ _ _ _ _ _ He) as (Hj & _).
    pose proof (increment_le (jobId w)).
    rewrite increment_exact in Hj by lia.
    rewrite (proj2 (Z.ltb_lt _ _)) by lia. simpl. by rewrite He. }
  rewrite Hs. simpl. by apply IH.
Qed.

Lemma run_app ops1 ops2 w :
  run (ops1 ++ ops2) w = run ops1 w ≫= run ops2.
Proof.
  revert w. induction ops1 as [|op ops1 IH]; intros w; simpl; [done|].
  destruct (step op w) as [w1|]; simpl; [apply IH|done].
Qed.

Lemma run_all_app ops1 ops2 w :
  run_all (ops1 ++ ops2) w = run_all ops1 w ≫= run_all ops2.
Proof.
  revert w. induction ops1 as [|op ops1 IH]; intros w; simpl; [done|].
  destruct (step_all op w) as [w1|]; simpl; [apply IH|done].
Qed.

Lemma run_in_range ops w w' :
  wf w -> (jobId w < MAX_SAFE)%Z -> run ops w = Some w' ->
  (jobId w' < MAX_SAFE)%Z.
Proof.
  revert w. induction ops as [|op ops IH]; intros w Hwf Hlt; simpl.
  - by intros [= <-].
  - destruct (step op w) as [w1|] eqn:Hstep; [|done]. simpl.
    apply IH; [by eapply wf_step|].
    pose proof (step_counter op w w1 Hwf Hstep) as Hc.
    destruct op; try (destruct Hc as [-> _]; done).
    apply step_Emit in Hstep as [? _]. destruct Hc as [-> _]. lia.
Qed.

(** The processes [run] leads to have their counter in the exact range. *)
Lemma reachable_exact ops w : run ops init = Some w -> (jobId w < MAX_SAFE)%Z.
Proof. apply run_in_range; [apply wf_init|done]. Qed.

Lemma wf_history ops w :
  run_all ops init = Some w -> (jobId w < MAX_SAFE)%Z -> wf w.
Proof. intros Hrun Hlt. eapply wf_reachable. by apply run_all_run. Qed.

(** C3: the counter starts at 1 and the identifiers are handed out in
    order while it counts: in every history that ends with the counter
    below 2^53, the identifiers handed out so far, in the order of the calls
    and whichever instance made them, are 1, 2, ..., [jobId - 1], each
    once; the next call, on any instance, takes [jobId] and moves the
    counter up by one. *)
Theorem jobId_sequence ops w :
  run_all ops init = Some w ->
  (jobId w < MAX_SAFE)%Z ->
  jobId init = 1%Z
  /\ registered (log w) = toString <$> seqZ 1 (jobId w - 1)
  /\ NoDup (registered (log w))
  /\ (forall this action args,
        is_Some (sdks w !! this) ->
        exists p w',
          emit this action args w = Some (p, w')
          /\ jobId w' = (jobId w + 1)%Z
          /\ registered (log w') = registered (log w) ++ [toString (jobId w)]).
Proof.
  intros Hall Hlt. pose proof (run_all_run _ _ _ Hall Hlt) as Hrun.
  pose proof (wf_reachable _ _ Hrun) as Hwf.
  destruct (run_counter ops init w wf_init Hrun) as [Hle Hreg].
  simpl in Hreg, Hle. split_and!; [done|done| |].
  - rewrite Hreg. apply NoDup_fmap_2; [|apply NoDup_seqZ].
    intros k k'. apply toString_inj.
  - intros this action args [s Hs].
    destruct (emit_spec this action args w s Hs)
      as (w' & He & Hj & _ & _ & _ & Hlog).
    exists (length (promises w)), w'. split; [done|].
    split; [by rewrite Hj, increment_exact|].
    rewrite Hlog, registered_app. by destruct (socket s).
Qed.

(** Two instances calling in turn: the identifiers are 1, 2, 3. *)
Lemma jobId_sequence_witness :
  let ops := [NewSdk "/api" default_authenticator;
              NewSdk "/other" default_authenticator;
              Emit 0 "fetchUser" [VStr "u1"]; Emit 1 "updateStats" [];
              Emit 0 "listMachines" [VStr "l1"]] in
  exists w, run_all ops init = Some w
            /\ jobId w = 4%Z
            /\ registered (log w) = ["1"; "2"; "3"]%string.
Proof.
  intros ops.
  assert (Hrun : run_all ops init = Some (default init (run_all ops init)))
    by (vm_compute; reflexivity).
  exists (default init (run_all ops init)).
  split; [exact Hrun|]. split; [vm_compute; reflexivity|].
  destruct (jobId_sequence ops _ Hrun) as (_ & Hreg & _).
  { vm_compute. reflexivity. }
  etrans; [exact Hreg|]. vm_compute. reflexivity.
Defined.

(** ** One call and its reply *)

Lemma emit_awaiting this action args w s sock p w' :
  wf w -> sdks w !! this = Some s -> socket s = Some sock ->
  emit this action args w = Some (p, w') ->
  awaiting w' this (jobId w) p
  /\ log w'
     = log w ++ [Registered this (toString (jobId w)) p;
                 Sent sock (VStr action
                              :: VObj [("jobId"%string, VNum (jobId w))] :: args)].
Proof.
  intros Hwf Hs Hsock He.
  destruct (emit_spec this action args w s Hs)
    as (w'' & He' & _ & _ & _ & Hpr & Hlog).
  rewrite He in He'. symmetry in He'. simplify_eq.
  rewrite Hsock in Hpr, Hlog. split_and!; [split| done].
  - rewrite (waiters_at_emit _ _ _ _ _ _ _ _ He), decide_True by done.
    pose proof (length_waiters_at w this (toString (jobId w))) as Hlen.
    rewrite (no_waiter_at_counter w _ Hwf eq_refl) in Hlen.
    destruct (waiters_at w this _); [done|simpl in Hlen; lia].
  - rewrite Hpr. apply lookup_snoc_length.
Qed.







(** ** What every history keeps *)

Lemma target_inj l l' : target l = target l' -> l = l'.
Proof. destruct l, l'. simpl. by intros ->. Qed.

Lemma sound_frame w w' :
  sound w ->
  (forall i n, waiters_at w' i n = waiters_at w i n) ->
  length (promises w') = length (promises w) ->
  called (log w') = called (log w) ->
  (forall j σ i, stores w' !! j = Some σ -> i ∈ subscribers σ ->
                 (i < length (sdks w'))%nat) ->
  sound w'.
Proof.
  intros Hs Hat Hlen Hlog Hsub.
  assert (Hw : forall i n q, waiter w' i n q <-> waiter w i n q).
  { intros i n q. unfold waiter. by rewrite Hat. }
  split.
  - intros i n q ?%Hw. rewrite Hlen. eapply s_targets; eauto.
  - intros i n q i' n' ?%Hw ?%Hw. eapply s_place; eauto.
  - intros i n. rewrite Hat. by apply s_nodup.
  - intros q i n. rewrite Hlog. intros Hq ?%Hw. eapply s_called; eauto.
  - intros q. rewrite Hlog, Hlen. by apply s_called_bound.
  - rewrite Hlog. by apply s_called_once.
  - done.
Qed.

Lemma sound_init : sound init.
Proof.
  split; simpl; try done.
  - intros i n q Hw. by apply elem_of_nil in Hw.
  - intros i n q i' n' Hw. by apply elem_of_nil in Hw.
  - intros i n. constructor.
  - intros q i n Hq. by apply elem_of_nil in Hq.
  - intros q Hq. by apply elem_of_nil in Hq.
  - constructor.
Qed.

Lemma sound_emit this action args w p w' :
  sound w -> emit this action args w = Some (p, w') -> sound w'.
Proof.
  intros Hs He.
  destruct (emit_inv _ _ _ _ _ _ He) as (s & Hsdk & ->).
  destruct (emit_spec this action args w s Hsdk)
    as (w'' & He' & _ & Hst & Hsd & Hpr & Hlog).
  rewrite He in He'. symmetry in He'. simplify_eq.
  assert (Hw := fun i n q => waiter_emit this action args w _ w' i n q He).
  assert (Hlen : length (promises w') = S (length (promises w))).
  { rewrite Hpr, length_app. simpl. lia. }
  assert (Hcalled : called (log w') = called (log w)).
  { rewrite Hlog, called_app.
    destruct (socket s); simpl; by rewrite app_nil_r. }
  split.
  - intros i n q [Hold|(-> & -> & ->)]%Hw; rewrite Hlen; [|lia].
    pose proof (s_targets w Hs i n q Hold). lia.
  - intros i n q i' n' [H1|(-> & -> & ->)]%Hw [H2|(-> & -> & Hq)]%Hw.
    + eapply s_place; eauto.
    + subst q. pose proof (s_targets w Hs _ _ _ H1). lia.
    + pose proof (s_targets w Hs _ _ _ H2). lia.
    + done.
  - intros i n. rewrite (waiters_at_emit _ _ _ _ _ _ _ _ He).
    case_decide; [|by apply s_nodup].
    apply NoDup_app. split_and!; [by apply s_nodup| |apply NoDup_singleton].
    intros l Hl ->%list_elem_of_singleton.
    pose proof (s_targets w Hs i n _ Hl). lia.
  - intros q i n. rewrite Hcalled.
    intros Hq [Hold|(-> & -> & ->)]%Hw.
    + eapply s_called; eauto.
    + pose proof (s_called_bound w Hs _ Hq). lia.
  - intros q. rewrite Hcalled, Hlen. intros Hq.
    pose proof (s_called_bound w Hs _ Hq). lia.
  - rewrite Hcalled. by apply s_called_once.
  - intros j σ i. rewrite Hst, Hsd, length_alter. by apply s_subscribers.
Qed.

Lemma sound_fire name args w this : sound w -> sound (fire_at name args w this).
Proof.
  intros Hs.
  destruct (fire_at_frame name args w this) as (Hj & Hst & Hsd & Hlen & Hlog).
  assert (Hold : forall i n q, waiter (fire_at name args w this) i n q ->
                               waiter w i n q).
  { intros i n q Hw. by apply waiter_fire in Hw as [? _]. }
  assert (Hcalled : called (log (fire_at name args w this))
                    = called (log w) ++ (target <$> waiters_at w this name)).
  { by rewrite Hlog, called_app, called_calls. }
  split.
  - intros i n q Hw. rewrite Hlen. eapply s_targets; eauto.
  - intros i n q i' n' H1 H2. eapply s_place; eauto.
  - intros i n. rewrite waiters_at_fire.
    case_decide; [constructor|by apply s_nodup].
  - intros q i n. rewrite Hcalled. intros [Hq|Hq]%elem_of_app Hw.
    + eapply s_called; eauto.
    + apply elem_of_targets in Hq.
      apply waiter_fire in Hw as [Hw Hne]. apply Hne.
      eapply (s_place w Hs); eauto.
  - intros q. rewrite Hcalled, Hlen. intros [Hq|Hq]%elem_of_app.
    + by apply s_called_bound.
    + apply elem_of_targets in Hq. eapply s_targets; eauto.
  - rewrite Hcalled. apply NoDup_app. split_and!.
    + by apply s_called_once.
    + intros q Hq Hq'. apply elem_of_targets in Hq'.
      eapply s_called; eauto.
    + apply NoDup_fmap_2_strong; [|by apply s_nodup].
      intros l l' _ _. apply target_inj.
  - intros j σ i. rewrite Hst, Hsd, length_alter. by apply s_subscribers.
Qed.

Lemma sound_fire_all name args subs w :
  sound w -> sound (foldl (fire_at name args) w subs).
Proof.
  revert w. induction subs as [|this subs IH]; intros w Hs; [done|].
  cbn [foldl]. by apply IH, sound_fire.
Qed.

(** What [dispatch] comes to when the subscribers of the store exist. *)
Lemma dispatch_eq store st w σ :
  stores w !! store = Some σ ->
  (forall i, i ∈ subscribers σ -> (i < length (sdks w))%nat) ->
  dispatch store st w
  = Some match job st with
         | Some k =>
             foldl (fire_at (toString k) [])
               (set_stores (alter (fun σ => {| getState := st;
                                               subscribers := subscribers σ |})
                                  store) w)
               (subscribers σ)
         | None =>
             set_stores (alter (fun σ => {| getState := st;
                                            subscribers := subscribers σ |})
                               store) w
         end.
Proof.
  intros Hσ Hsubs. unfold dispatch. rewrite Hσ. simpl.
  set (w1 := set_stores _ w).
  assert (Hσ1 : stores w1 !! store
                = Some {| getState := st; subscribers := subscribers σ |}).
  { subst w1. simpl. by rewrite list_lookup_alter_eq, Hσ. }
  destruct (job st) as [k|] eqn:Hk.
  - by apply (notify_job _ _ _ _ k Hσ1).
  - by apply (notify_no_job _ _ _ _ Hσ1).
Qed.

Lemma sound_dispatch store st w w' :
  sound w -> dispatch store st w = Some w' -> sound w'.
Proof.
  intros Hs Hd. destruct (stores w !! store) as [σ|] eqn:Hσ;
    [|unfold dispatch in Hd; by rewrite Hσ in Hd].
  rewrite (dispatch_eq store st w σ Hσ) in Hd
    by (intros i Hi; by eapply s_subscribers).
  injection Hd as <-.
  assert (Hs1 : sound (set_stores
                         (alter (fun σ => {| getState := st;
                                             subscribers := subscribers σ |})
                                store) w)).
  { apply (sound_frame w); try done.
    intros j σ' i Hj Hi. simpl in *.
    destruct (decide (store = j)) as [<-|Hne].
    - rewrite list_lookup_alter_eq, Hσ in Hj. simplify_eq/=.
      by eapply s_subscribers.
    - rewrite list_lookup_alter_ne in Hj by done. by eapply s_subscribers. }
  destruct (job st); [by apply sound_fire_all|done].
Qed.

Lemma sound_step_all op w w' : sound w -> step_all op w = Some w' -> sound w'.
Proof.
  intros Hs. destruct op as [url auth|st|this store sock|this action args|store st];
    simpl.
  - intros [= <-]. apply (sound_frame w); try done.
    + apply waiters_at_new_Sdk.
    + intros j σ i Hj Hi. simpl in *. rewrite length_app.
      pose proof (s_subscribers w Hs j σ i Hj Hi). lia.
  - intros [= <-]. apply (sound_frame w); try done.
    intros j σ i Hj Hi. simpl in *.
    apply lookup_app_Some in Hj as [Hj|[_ Hj]].
    + by eapply s_subscribers.
    + destruct (j - length (stores w))%nat as [|[|?]]; simplify_eq/=.
      by apply elem_of_nil in Hi.
  - intros Hset.
    destruct (setupRedux_frame _ _ _ _ _ Hset) as (_ & Hpr & Hlog & Hat & _).
    apply (sound_frame w); try done; [by rewrite Hpr|by rewrite Hlog|].
    unfold setupRedux in Hset.
    destruct (sdks w !! this) as [s|] eqn:Hsdk; [|done].
    destruct (stores w !! store) as [σ|] eqn:Hσ; [|done].
    simpl in Hset. injection Hset as <-.
    intros j σ' i Hj Hi. simpl in *. rewrite length_alter.
    destruct (decide (store = j)) as [<-|Hne].
    + rewrite list_lookup_alter_eq, Hσ in Hj. simplify_eq/=.
      apply elem_of_app in Hi as [Hi|Hi].
      * by eapply s_subscribers.
      * apply list_elem_of_singleton in Hi as ->. by eapply lookup_lt_Some.
    + rewrite list_lookup_alter_ne in Hj by done. by eapply s_subscribers.
  - destruct (emit this action args w) as [[p w'']|] eqn:He; [|done].
    simpl. intros [= <-]. by eapply sound_emit.
  - by apply sound_dispatch.
Qed.

Lemma sound_history ops w : run_all ops init = Some w -> sound w.
Proof.
  assert (Hgen : forall ops w0 w, sound w0 -> run_all ops w0 = Some w -> sound w).
  { clear. induction ops as [|op ops IH]; intros w0 w Hs; simpl.
    - by intros [= <-].
    - destruct (step_all op w0) as [w1|] eqn:Hstep; [|done]. simpl.
      apply IH. by eapply sound_step_all. }
  apply Hgen, sound_init.
Qed.

(** ** Waiters fire once *)

Lemma fire_all_idle name args subs w :
  (forall i, i ∈ subs -> waiters_at w i name = []) ->
  promises (foldl (fire_at name args) w subs) = promises w
  /\ log (foldl (fire_at name args) w subs) = log w
  /\ (forall i n, waiters_at (foldl (fire_at name args) w subs) i n
                  = waiters_at w i n).
Proof.
  intros Hidle. split_and!.
  - apply list_eq. intros q. apply promises_fire_all_miss.
    intros i Hi. rewrite (Hidle i Hi). apply not_elem_of_nil.
  - revert w Hidle. induction subs as [|this subs IH]; intros w Hidle; [done|].
    cbn [foldl]. rewrite IH.
    + destruct (fire_at_frame name args w this) as (_ & _ & _ & _ & ->).
      rewrite (Hidle this) by apply list_elem_of_here. simpl.
      by rewrite app_nil_r.
    + intros i Hi. rewrite waiters_at_fire. case_decide; [done|].
      by apply Hidle, list_elem_of_further.
  - intros i n. rewrite waiters_at_fire_all. case_decide as Hd; [|done].
    destruct Hd as [Hi ->]. by rewrite Hidle.
Qed.

(** C6: while the counter counts (the history ends with it below 2^53), a
    job identifier has at most one waiter, over all emitters; and in every
    history no listener has been called twice, and once a job was reported,
    reporting it again calls no listener, settles no promise and leaves the
    emitters as they are. *)
Theorem waiter_fires_at_most_once ops w :
  run_all ops init = Some w ->
  ((jobId w < MAX_SAFE)%Z ->
   forall k, (length (all_waiters w (toString k)) <= 1)%nat)
  /\ NoDup (called (log w))
  /\ (forall store st w1 st',
        dispatch store st w = Some w1 -> job st' = job st ->
        exists w2,
          dispatch store st' w1 = Some w2
          /\ promises w2 = promises w1
          /\ log w2 = log w1
          /\ (forall i n, waiters_at w2 i n = waiters_at w1 i n)).
Proof.
  intros Hrun. pose proof (sound_history _ _ Hrun) as Hs.
  split; [intros Hlt k; by apply wf_single, (wf_history ops)|].
  split; [by apply s_called_once|].
  intros store st w1 st' Hd Hjob.
  destruct (stores w !! store) as [σ|] eqn:Hσ;
    [|unfold dispatch in Hd; by rewrite Hσ in Hd].
  pose proof (sound_dispatch _ _ _ _ Hs Hd) as Hs1.
  rewrite (dispatch_eq store st w σ Hσ) in Hd
    by (intros i Hi; by eapply s_subscribers).
  injection Hd as Hw1.
  set (w0 := set_stores _ w) in *.
  assert (Hσ1 : stores w1 !! store
                = Some {| getState := st; subscribers := subscribers σ |}).
  { assert (Hσ0 : stores w0 !! store
                  = Some {| getState := st; subscribers := subscribers σ |}).
    { subst w0. simpl. by rewrite list_lookup_alter_eq, Hσ. }
    rewrite <- Hw1. destruct (job st) as [k|]; [|done].
    by destruct (fire_all_frame (toString k) [] (subscribers σ) w0)
      as (_ & -> & _). }
  eexists. split.
  { apply (dispatch_eq store st' w1 _ Hσ1).
    intros i Hi. by eapply (s_subscribers w1 Hs1). }
  simpl. rewrite Hjob.
  destruct (job st) as [k|]; [|done].
  set (w10 := set_stores _ w1).
  apply (fire_all_idle (toString k) [] (subscribers σ) w10).
  intros i Hi.
  change (waiters_at w10 i (toString k)) with (waiters_at w1 i (toString k)).
  by rewrite <- Hw1, waiters_at_fire_all, decide_True.
Qed.

(** Job 1 is reported twice: the second report changes nothing. *)
Lemma waiter_fires_at_most_once_witness :
  let ops := sample_run 2 in
  let st := {| job := Some 1%Z; data := sample_users |} in
  exists w w1 w2,
    run_all ops init = Some w
    /\ (forall k, (length (all_waiters w (toString k)) <= 1)%nat)
    /\ dispatch 0 st w = Some w1
    /\ dispatch 0 st w1 = Some w2
    /\ promises w1 = [Fulfilled VUndefined; Pending]
    /\ promises w2 = promises w1
    /\ called (log w2) = [0%nat].
Proof.
  intros ops st.
  assert (Hrun : run_all ops init = Some (sample_process 2))
    by (vm_compute; reflexivity).
  assert (Hd : dispatch 0 st (sample_process 2)
               = Some (default init (dispatch 0 st (sample_process 2))))
    by (vm_compute; reflexivity).
  destruct (waiter_fires_at_most_once ops _ Hrun) as (Hone & _ & Hagain).
  destruct (Hagain 0%nat st _ st Hd eq_refl) as (w2 & Hd2 & Hp & Hl & _).
  exists (sample_process 2), (default init (dispatch 0 st (sample_process 2))), w2.
  split; [exact Hrun|]. split; [apply Hone; by vm_compute|].
  split; [exact Hd|]. split; [exact Hd2|].
  split; [vm_compute; reflexivity|]. split; [exact Hp|].
  rewrite Hl. vm_compute. reflexivity.
Defined.

(** ** Many calls, replies in any order *)

Lemma emit_all_spec this calls w s sock :
  wf w -> sdks w !! this = Some s -> socket s = Some sock ->
  (jobId w + Z.of_nat (length calls) <= MAX_SAFE)%Z ->
  exists ps w1,
    emit_all this calls w = Some (ps, w1)
    /\ wf w1
    /\ length ps = length calls
    /\ (forall store i, subscribed w store i -> subscribed w1 store i)
    /\ (forall i k p, awaiting w i k p -> awaiting w1 i k p)
    /\ (forall idx p, ps !! idx = Some p ->
                      awaiting w1 this (jobId w + Z.of_nat idx) p).
Proof.
  revert w s.
  induction calls as [|[action args] calls IH]; intros w s Hwf Hs Hsock Hroom.
  - exists [], w. split_and!; try done.
  - simpl in Hroom.
    assert (Hexact : (jobId w < MAX_SAFE)%Z) by lia.
    destruct (emit_spec this action args w s Hs) as (w' & He & Hj & _).
    rewrite (increment_exact _ Hexact) in Hj.
    pose proof (wf_emit _ _ _ _ _ _ Hwf Hexact He) as Hwf'.
    destruct (emit_awaiting _ _ _ _ _ _ _ _ Hwf Hs Hsock He) as [Haw _].
    destruct (emit_frame _ _ _ _ _ _ He) as (_ & Hst & _ & _ & Hsocks).
    destruct (sdks w' !! this) as [s'|] eqn:Hs'.
    2: { specialize (Hsocks this). by rewrite Hs, Hs' in Hsocks. }
    assert (Hsock' : socket s' = Some sock).
    { specialize (Hsocks this). rewrite Hs, Hs' in Hsocks. simpl in Hsocks.
      congruence. }
    destruct (IH w' s' Hwf' Hs' Hsock')
      as (ps & w1 & Hall & Hwf1 & Hlen & Hsub & Hkeep & Hnew); [lia|].
    exists (length (promises w) :: ps), w1.
    split_and!.
    + cbn [emit_all]. rewrite He. simpl. by rewrite Hall.
    + done.
    + simpl. by rewrite Hlen.
    + intros store i Hi. apply Hsub. unfold subscribed. by rewrite Hst.
    + intros i k p Hi. apply Hkeep.
      exact (emit_keeps_awaiting _ _ _ _ _ _ _ _ _ Hwf Hi He).
    + intros [|idx] p Hp; simpl in Hp.
      * simplify_eq. rewrite Z.add_0_r. by apply Hkeep.
      * replace (jobId w + Z.of_nat (S idx))%Z
          with (jobId w' + Z.of_nat idx)%Z by lia.
        by apply Hnew.
Qed.

(** After the replies in [acc], call [idx] is fulfilled when its identifier
    is among them and waits otherwise. *)
Lemma deliver_routes store payload this j0 (ps : list PromiseId) ids :
  forall w acc,
    wf w -> subscribed w store this ->
    (forall idx p, ps !! idx = Some p ->
       if bool_decide ((j0 + Z.of_nat idx)%Z ∈ acc)
       then promises w !! p = Some (Fulfilled VUndefined)
       else awaiting w this (j0 + Z.of_nat idx) p) ->
    exists w',
      deliver store payload ids w = Some w'
      /\ (forall idx p, ps !! idx = Some p ->
            if bool_decide ((j0 + Z.of_nat idx)%Z ∈ acc ++ ids)
            then promises w' !! p = Some (Fulfilled VUndefined)
            else awaiting w' this (j0 + Z.of_nat idx) p).
Proof.
  induction ids as [|k ids IH]; intros w acc Hwf Hsub Hinv.
  - exists w. split; [done|]. by rewrite app_nil_r.
  - pose (st := {| job := Some k; data := payload k |}).
    destruct Hsub as (σ & Hσ & Hthis).
    destruct (dispatch_spec store st w σ Hwf Hσ) as [_ Hd].
    set (w1 := match job st with Some _ => _ | None => _ end) in Hd.
    assert (Hstep : step (Dispatch store st) w = Some w1) by exact Hd.
    assert (Hsub : subscribed w store this) by (exists σ; done).
    destruct (IH w1 (acc ++ [k])) as (w' & Hdel & Hres).
    + by apply (wf_step (Dispatch store st) w).
    + by apply (step_subscribed (Dispatch store st) w).
    + intros idx p Hp. specialize (Hinv idx p Hp).
      destruct (bool_decide_reflect ((j0 + Z.of_nat idx)%Z ∈ acc)) as [Hin|Hout].
      * rewrite bool_decide_eq_true_2 by (apply elem_of_app; by left).
        by apply (step_keeps_settled (Dispatch store st) w).
      * destruct (decide (k = (j0 + Z.of_nat idx)%Z)) as [->|Hne].
        -- rewrite bool_decide_eq_true_2
             by (apply elem_of_app; right; apply list_elem_of_here).
           destruct (dispatch_fires store st w this _ p Hwf Hsub Hinv eq_refl)
             as (w1' & Hd' & Hp' & _).
           rewrite Hd in Hd'. by simplify_eq.
        -- rewrite bool_decide_eq_false_2.
           ++ apply (step_keeps_awaiting (Dispatch store st) w); try done.
              simpl. congruence.
           ++ intros [?|?%list_elem_of_singleton]%elem_of_app; congruence.
    + exists w'. split.
      * cbn [deliver]. fold st. rewrite Hd. exact Hdel.
      * by rewrite <- app_assoc in Hres.
Qed.

(** C2: while the counter counts, that is on a process whose counter is
    below 2^53 and has room for [N] more identifiers: after [N] calls in a
    row on an instance that was set up, let the replies come in any order
    and stop after any number of them: the promise of a call is fulfilled
    exactly when the reply to its own identifier has been reported, and
    pending otherwise. *)
Theorem replies_route_by_identifier ops w this s sock store calls payload
    order delivered rest :
  run_all ops init = Some w ->
  (jobId w < MAX_SAFE)%Z ->
  (jobId w + Z.of_nat (length calls) <= MAX_SAFE)%Z ->
  sdks w !! this = Some s -> socket s = Some sock ->
  subscribed w store this ->
  order ≡ₚ seqZ (jobId w) (Z.of_nat (length calls)) ->
  order = delivered ++ rest ->
  exists ps w1 w2,
    emit_all this calls w = Some (ps, w1)
    /\ length ps = length calls
    /\ deliver store payload delivered w1 = Some w2
    /\ (forall idx p, ps !! idx = Some p ->
          promises w2 !! p
          = Some (if bool_decide ((jobId w + Z.of_nat idx)%Z ∈ delivered)
                  then Fulfilled VUndefined else Pending)).
Proof.
  intros Hrun Hlt Hroom Hs Hsock Hsub _ _.
  pose proof (wf_history _ _ Hrun Hlt) as Hwf.
  destruct (emit_all_spec this calls w s sock Hwf Hs Hsock Hroom)
    as (ps & w1 & Hall & Hwf1 & Hlen & Hsubs & _ & Hnew).
  destruct (deliver_routes store payload this (jobId w) ps delivered w1 []
              Hwf1 (Hsubs _ _ Hsub)) as (w2 & Hdel & Hres).
  { intros idx p Hp. rewrite bool_decide_eq_false_2 by apply not_elem_of_nil.
    by apply Hnew. }
  exists ps, w1, w2. split_and!; try done.
  intros idx p Hp. specialize (Hres idx p Hp). simpl in Hres.
  destruct (bool_decide _); [done|]. apply Hres.
Qed.

(** Calls 8 and 9 in flight, the reply to 9 first: the promise of call 9
    is settled while that of call 8 waits; the reply to 8 settles it. *)
Lemma replies_route_by_identifier_witness :
  let calls := [("fetchLaundry"%string, [VStr "l1"]);
                ("fetchUser"%string, [VStr "u1"])] in
  exists p8 p9 w1 w2 w3,
    jobId (sample_process 7) = 8%Z
    /\ emit_all 0 calls (sample_process 7) = Some ([p8; p9], w1)
    /\ deliver 0 (fun _ => VNull) [9%Z] w1 = Some w2
    /\ promises w2 !! p9 = Some (Fulfilled VUndefined)
    /\ promises w2 !! p8 = Some Pending
    /\ deliver 0 (fun _ => VNull) [9%Z; 8%Z] w1 = Some w3
    /\ promises w3 !! p8 = Some (Fulfilled VUndefined).
Proof.
  intros calls.
  assert (Hrun : run_all (sample_run 7) init = Some (sample_process 7))
    by (vm_compute; reflexivity).
  assert (Hlt : (jobId (sample_process 7) < MAX_SAFE)%Z)
    by (vm_compute; reflexivity).
  assert (Hroom : (jobId (sample_process 7) + Z.of_nat (length calls)
                   <= MAX_SAFE)%Z)
    by (vm_compute; discriminate).
  assert (Hs : sdks (sample_process 7) !! 0%nat = Some (sample_instance 7))
    by (vm_compute; reflexivity).
  assert (Hsub : subscribed (sample_process 7) 0 0).
  { exists {| getState := {| job := None; data := VNull |};
              subscribers := [0%nat] |}.
    split; [vm_compute; reflexivity|apply list_elem_of_here]. }
  assert (Hperm : [9%Z; 8%Z] ≡ₚ seqZ (jobId (sample_process 7))
                                  (Z.of_nat (length calls))).
  { change (seqZ _ _) with [8%Z; 9%Z]. apply perm_swap. }
  destruct (replies_route_by_identifier (sample_run 7) (sample_process 7) 0
              (sample_instance 7) 0 0 calls (fun _ => VNull)
              [9%Z; 8%Z] [9%Z] [8%Z] Hrun Hlt Hroom Hs eq_refl Hsub Hperm eq_refl)
    as (ps & w1 & w2 & Hall & Hlen & Hdel & Hres).
  destruct (replies_route_by_identifier (sample_run 7) (sample_process 7) 0
              (sample_instance 7) 0 0 calls (fun _ => VNull)
              [9%Z; 8%Z] [9%Z; 8%Z] [] Hrun Hlt Hroom Hs eq_refl Hsub Hperm eq_refl)
    as (ps' & w1' & w3 & Hall' & _ & Hdel' & Hres').
  rewrite Hall in Hall'. injection Hall' as <- <-.
  destruct ps as [|p8 [|p9 [|? ?]]]; try discriminate Hlen.
  exists p8, p9, w1, w2, w3.
  split; [reflexivity|]. split; [exact Hall|]. split; [exact Hdel|].
  split; [exact (Hres 1%nat p9 eq_refl)|].
  split; [exact (Hres 0%nat p8 eq_refl)|].
  split; [exact Hdel'|]. exact (Hres' 0%nat p8 eq_refl).
Defined.

(** ** Where the counter stops *)

(** [run] is [run_all] on the histories that end with the counter below
    2^53: nothing else is left out. *)
Lemma run_iff ops w :
  run ops init = Some w <-> run_all ops init = Some w /\ (jobId w < MAX_SAFE)%Z.
Proof.
  split.
  - intros Hrun. split; [by apply run_run_all|by eapply reachable_exact].
  - intros [Hrun Hlt]. by apply run_all_run.
Qed.

Lemma emit_keeps_instance this action args w p w' i s :
  emit this action args w = Some (p, w') -> sdks w !! i = Some s ->
  exists s', sdks w' !! i = Some s' /\ socket s' = socket s.
Proof.
  intros He Hs. destruct (emit_frame _ _ _ _ _ _ He) as (_ & _ & _ & _ & Hsocks).
  specialize (Hsocks i). rewrite Hs in Hsocks.
  destruct (sdks w' !! i) as [s'|]; [|done].
  exists s'. split; [done|]. simpl in Hsocks. congruence.
Qed.

Lemma run_all_Emit this action args ops w p w' :
  emit this action args w = Some (p, w') ->
  run_all (Emit this action args :: ops) w = run_all ops w'.
Proof. intros He. simpl. by rewrite He. Qed.

Lemma emit_all_cons this action args calls w p w' ps w'' :
  emit this action args w = Some (p, w') ->
  emit_all this calls w' = Some (ps, w'') ->
  emit_all this ((action, args) :: calls) w = Some (p :: ps, w'').
Proof. intros He Hall. cbn [emit_all]. rewrite He. simpl. by rewrite Hall. Qed.

(** [n] calls on the first instance, while the counter has room for them. *)
Lemma calls_in_range n : forall w s,
  wf w -> sdks w !! 0%nat = Some s -> socket s = Some 0%nat ->
  subscribed w 0 0 ->
  (jobId w + Z.of_nat n < MAX_SAFE)%Z ->
  exists w' s',
    run (replicate n (Emit 0 "updateStats" [])) w = Some w'
    /\ wf w'
    /\ jobId w' = (jobId w + Z.of_nat n)%Z
    /\ sdks w' !! 0%nat = Some s' /\ socket s' = Some 0%nat
    /\ subscribed w' 0 0.
Proof.
  induction n as [|n IH]; intros w s Hwf Hs Hsock Hsub Hroom.
  - exists w, s. split_and!; try done. simpl. lia.
  - destruct (emit_spec 0 "updateStats" [] w s Hs) as (w1 & He & Hj & Hst & _).
    rewrite increment_exact in Hj by lia.
    destruct (emit_keeps_instance _ _ _ _ _ _ _ _ He Hs) as (s1 & Hs1 & Hsock1).
    destruct (IH w1 s1) as (w' & s' & Hrun & Hwf' & Hj' & Hs' & Hsock' & Hsub').
    + eapply wf_emit; [exact Hwf|lia|exact He].
    + done.
    + congruence.
    + unfold subscribed. by rewrite Hst.
    + lia.
    + exists w', s'. split_and!; try done; [|lia].
      cbn [replicate run].
      assert (Hlt : (jobId w + 1 < MAX_SAFE)%Z) by lia.
      rewrite (step_Emit_intro _ _ _ _ _ _ Hlt He). exact Hrun.
Qed.

(** A history that brings the counter to 2^53 - 1: the sample application
    after 2^53 - 2 calls. *)
Lemma near_the_top n :
  Z.of_nat n = (MAX_SAFE - 2)%Z ->
  exists w s,
    run (sample_run n) init = Some w
    /\ wf w
    /\ jobId w = (MAX_SAFE - 1)%Z
    /\ sdks w !! 0%nat = Some s /\ socket s = Some 0%nat
    /\ subscribed w 0 0.
Proof.
  intros Hn. unfold sample_run.
  assert (Hpre : run [NewSdk "/api" default_authenticator;
                      CreateStore {| job := None; data := VNull |};
                      SetupRedux 0 0 0] init = Some (sample_process 0))
    by (vm_compute; reflexivity).
  assert (Hj : jobId (sample_process 0) = 1%Z) by (vm_compute; reflexivity).
  assert (Hs : sdks (sample_process 0) !! 0%nat = Some (sample_instance 0))
    by (vm_compute; reflexivity).
  assert (Hsock : socket (sample_instance 0) = Some 0%nat)
    by (vm_compute; reflexivity).
  assert (Hsub : subscribed (sample_process 0) 0 0).
  { exists {| getState := {| job := None; data := VNull |};
              subscribers := [0%nat] |}.
    split; [vm_compute; reflexivity|apply list_elem_of_here]. }
  assert (Hwf : wf (sample_process 0)).
  { apply (wf_reachable (sample_run 0)). vm_compute. reflexivity. }
  destruct (calls_in_range n (sample_process 0) _ Hwf Hs Hsock Hsub)
    as (w & s & Hrun & Hwf' & Hj' & Hs' & Hsock' & Hsub'); [lia|].
  exists w, s. rewrite run_app, Hpre. split_and!; try done. lia.
Qed.

(** Three more calls from there: the second and the third take 2^53 both. *)
Lemma three_calls_at_the_top w s a1 r1 a2 r2 a3 r3 :
  wf w -> jobId w = (MAX_SAFE - 1)%Z ->
  sdks w !! 0%nat = Some s -> socket s = Some 0%nat ->
  exists p1 p2 p3 w1 w2 w3,
    emit 0 a1 r1 w = Some (p1, w1)
    /\ emit 0 a2 r2 w1 = Some (p2, w2)
    /\ emit 0 a3 r3 w2 = Some (p3, w3)
    /\ registered (log w3)
       = registered (log w) ++ [toString (MAX_SAFE - 1); toString MAX_SAFE;
                                toString MAX_SAFE]
    /\ waiters_at w3 0 (toString MAX_SAFE) = [OnceResolve p2; OnceResolve p3]
    /\ promises w3 !! p3 = Some Pending
    /\ stores w3 = stores w
    /\ length (sdks w3) = length (sdks w).
Proof.
  intros Hwf Hj Hs Hsock.
  destruct (emit_spec 0 a1 r1 w s Hs) as (w1 & He1 & Hj1 & Hst1 & _ & _ & Hlog1).
  rewrite increment_exact, Hj in Hj1 by lia.
  destruct (emit_keeps_instance _ _ _ _ _ _ _ _ He1 Hs) as (s1 & Hs1 & Hsock1).
  destruct (emit_spec 0 a2 r2 w1 s1 Hs1)
    as (w2 & He2 & Hj2 & Hst2 & _ & _ & Hlog2).
  rewrite Hj1 in Hj2. replace (MAX_SAFE - 1 + 1)%Z with MAX_SAFE in * by lia.
  rewrite increment_stuck in Hj2 by lia.
  destruct (emit_keeps_instance _ _ _ _ _ _ _ _ He2 Hs1) as (s2 & Hs2 & Hsock2).
  destruct (emit_spec 0 a3 r3 w2 s2 Hs2)
    as (w3 & He3 & Hj3 & Hst3 & _ & Hpr3 & Hlog3).
  rewrite Hsock in Hlog1. rewrite Hsock1, Hsock in Hlog2.
  rewrite Hsock2, Hsock1, Hsock in Hlog3, Hpr3.
  assert (Hwf1 : wf w1) by (eapply wf_emit; [exact Hwf|lia|exact He1]).
  exists (length (promises w)), (length (promises w1)), (length (promises w2)),
    w1, w2, w3.
  split; [exact He1|]. split; [exact He2|]. split; [exact He3|].
  split_and!.
  - rewrite Hlog3, Hlog2, Hlog1, Hj, Hj1, Hj2, !registered_app. simpl.
    by rewrite <- !app_assoc.
  - rewrite (waiters_at_emit _ _ _ _ _ _ _ _ He3), decide_True
      by (by rewrite Hj2).
    rewrite (waiters_at_emit _ _ _ _ _ _ _ _ He2), decide_True
      by (by rewrite Hj1).
    pose proof (length_waiters_at w1 0 (toString MAX_SAFE)) as Hlen.
    rewrite (no_waiter_at_counter w1 _ Hwf1) in Hlen by (by rewrite Hj1).
    by destruct (waiters_at w1 0 _); [|simpl in Hlen; lia].
  - rewrite Hpr3. apply lookup_snoc_length.
  - by rewrite Hst3, Hst2, Hst1.
  - destruct (emit_frame _ _ _ _ _ _ He1) as (_ & _ & Hl1 & _).
    destruct (emit_frame _ _ _ _ _ _ He2) as (_ & _ & Hl2 & _).
    destruct (emit_frame _ _ _ _ _ _ He3) as (_ & _ & Hl3 & _).
    by rewrite Hl3, Hl2, Hl1.
Qed.

Lemma two_short_of_the_top :
  Z.of_nat (Z.to_nat (MAX_SAFE - 2)) = (MAX_SAFE - 2)%Z.
Proof. apply Z2Nat.id. unfold MAX_SAFE. lia. Qed.

(** C3, counterexample: read for every history, the claim fails where the
    counter stops.  After 2^53 - 2 calls the next three take 2^53 - 1, 2^53
    and 2^53 again: [jobId++] leaves 2^53 in the counter, so the identifier
    9007199254740992 is handed out twice. *)
Lemma identifiers_repeat_at_2_53 : ~ identifiers_never_reused.
Proof.
  intros Hclaim.
  destruct (near_the_top _ two_short_of_the_top)
    as (w & s & Hrun & Hwf & Hj & Hs & Hsock & _).
  destruct (three_calls_at_the_top w s "updateStats" [] "updateStats" []
              "updateStats" [] Hwf Hj Hs Hsock)
    as (p1 & p2 & p3 & w1 & w2 & w3 & He1 & He2 & He3 & Hreg & _).
  specialize (Hclaim (sample_run (Z.to_nat (MAX_SAFE - 2))
                      ++ [Emit 0 "updateStats" []; Emit 0 "updateStats" [];
                          Emit 0 "updateStats" []]) w3).
  rewrite run_all_app, (run_run_all _ _ _ Hrun) in Hclaim.
  cbn [mbind option_bind] in Hclaim.
  rewrite (run_all_Emit _ _ _ _ _ _ _ He1), (run_all_Emit _ _ _ _ _ _ _ He2),
    (run_all_Emit _ _ _ _ _ _ _ He3) in Hclaim.
  specialize (Hclaim eq_refl). rewrite Hreg in Hclaim.
  apply NoDup_app in Hclaim as (_ & _ & Hdup).
  apply NoDup_cons in Hdup as [_ Hdup].
  apply NoDup_cons in Hdup as [Hnot _].
  apply Hnot, list_elem_of_here.
Qed.

(** C6, counterexample: in the same history the two calls that took 2^53
    both wait under 9007199254740992 in the emitter of the instance: the
    identifier has two waiters. *)
Lemma two_waiters_at_2_53 : ~ one_waiter_per_identifier.
Proof.
  intros Hclaim.
  destruct (near_the_top _ two_short_of_the_top)
    as (w & s & Hrun & Hwf & Hj & Hs & Hsock & _).
  destruct (three_calls_at_the_top w s "updateStats" [] "updateStats" []
              "updateStats" [] Hwf Hj Hs Hsock)
    as (p1 & p2 & p3 & w1 & w2 & w3 & He1 & He2 & He3 & _ & Hat & _).
  specialize (Hclaim (sample_run (Z.to_nat (MAX_SAFE - 2))
                      ++ [Emit 0 "updateStats" []; Emit 0 "updateStats" [];
                          Emit 0 "updateStats" []]) w3 MAX_SAFE).
  rewrite run_all_app, (run_run_all _ _ _ Hrun) in Hclaim.
  cbn [mbind option_bind] in Hclaim.
  rewrite (run_all_Emit _ _ _ _ _ _ _ He1), (run_all_Emit _ _ _ _ _ _ _ He2),
    (run_all_Emit _ _ _ _ _ _ _ He3) in Hclaim.
  specialize (Hclaim eq_refl).
  pose proof (length_waiters_at w3 0 (toString MAX_SAFE)) as Hlen.
  rewrite Hat in Hlen. cbn [length] in Hlen. lia.
Qed.

(** C2, counterexample: three calls in a row from the process whose counter
    is 2^53 - 1, and the reply to the second alone.  The second and the third
    call both wait under 9007199254740992, so that reply fulfils the promise
    of the third call as well, whose own reply has not come. *)
Lemma reply_settles_two_calls_at_2_53 : ~ routes_every_sequence.
Proof.
  intros Hclaim.
  destruct (near_the_top _ two_short_of_the_top)
    as (w & s & Hrun & Hwf & Hj & Hs & Hsock & Hsub).
  destruct (three_calls_at_the_top w s "fetchUser" [] "fetchUser" []
              "fetchUser" [] Hwf Hj Hs Hsock)
    as (p1 & p2 & p3 & w1 & w2 & w3 & He1 & He2 & He3 & _ & Hat & Hp3 & Hst
        & Hlen).
  set (calls := [("fetchUser"%string, @nil JsVal); ("fetchUser"%string, []);
                 ("fetchUser"%string, [])]).
  set (l := seqZ (jobId w) (Z.of_nat (length calls))).
  assert (Hl : l = [jobId w; Z.succ (jobId w); Z.succ (Z.succ (jobId w))]).
  { subst l. simpl length. rewrite !seqZ_cons by lia. simpl.
    by rewrite seqZ_nil by lia. }
  destruct (Hclaim _ w 0%nat s 0%nat 0%nat calls (fun _ => VNull)
              (drop 1 l ++ take 1 l) (take 1 (drop 1 l))
              (drop 2 l ++ take 1 l) (run_run_all _ _ _ Hrun) Hs Hsock Hsub)
    as (ps & w1' & w4 & Hall & _ & Hdel & Hres).
  { rewrite Permutation_app_comm. by rewrite take_drop. }
  { by rewrite Hl. }
  unfold calls in Hall.
  rewrite (emit_all_cons _ _ _ _ _ _ _ _ _ He1
             (emit_all_cons _ _ _ _ _ _ _ _ _ He2
                (emit_all_cons _ _ _ [] _ _ _ [] w3 He3 eq_refl))) in Hall.
  injection Hall as <- <-.
  specialize (Hres 2%nat p3 eq_refl).
  rewrite Hl in Hdel, Hres. cbn [drop take] in Hdel, Hres.
  rewrite bool_decide_eq_false_2 in Hres
    by (intros ?%list_elem_of_singleton; lia).
  destruct Hsub as (σ & Hσ & Hi). rewrite <- Hst in Hσ.
  cbn [deliver] in Hdel.
  rewrite (dispatch_eq 0 _ w3 σ Hσ) in Hdel.
  2: { intros i Hin. rewrite Hlen. rewrite Hst in Hσ.
       by eapply (wf_subscribers w Hwf). }
  simpl in Hdel. injection Hdel as <-.
  replace (Z.succ (jobId w)) with MAX_SAFE in Hres by lia.
  rewrite (promises_fire_all_hit _ _ _ _ 0%nat p3) in Hres.
  - simpl in Hres. rewrite Hp3 in Hres. done.
  - done.
  - change (OnceResolve p3 ∈ waiters_at w3 0 (toString MAX_SAFE)).
    rewrite Hat. apply list_elem_of_further, list_elem_of_here.
Qed.

(** * Further properties of the engine *)





Lemma run_keeps_settled ops w w' p st :
  wf w -> promises w !! p = Some st -> st <> Pending ->
  run ops w = Some w' -> promises w' !! p = Some st.
Proof.
  revert w. induction ops as [|op ops IH]; intros w Hwf Hp Hst Hrun; simpl in *.
  - by simplify_eq.
  - destruct (step op w) as [w1|] eqn:Hstep; [|done]. simpl in Hrun.
    apply (IH w1); eauto using wf_step, step_keeps_settled.
Qed.

(** X3: [emit] on an instance that [setupRedux] has not given a socket: the
    promise comes back rejected with a TypeError and nothing is sent, yet
    the identifier is used up and its waiter stays registered; whatever the
    process does afterwards, the promise stays rejected. *)
Theorem emit_without_socket ops w this s action args :
  run ops init = Some w ->
  sdks w !! this = Some s -> socket s = None ->
  exists p w' msg,
    emit this action args w = Some (p, w')
    /\ promises w' !! p = Some (Rejected (TypeError msg))
    /\ jobId w' = (jobId w + 1)%Z
    /\ log w' = log w ++ [Registered this (toString (jobId w)) p]
    /\ waiters_at w' this (toString (jobId w)) = [OnceResolve p]
    /\ (forall later w'',
          run later w' = Some w'' ->
          promises w'' !! p = Some (Rejected (TypeError msg))).
Proof.
  intros Hrun Hs Hsock. pose proof (wf_reachable _ _ Hrun) as Hwf.
  destruct (emit_spec this action args w s Hs)
    as (w' & He & Hj & _ & _ & Hpr & Hlog).
  rewrite (increment_exact _ (reachable_exact _ _ Hrun)) in Hj.
  rewrite Hsock in Hpr, Hlog.
  assert (Hp : promises w' !! length (promises w)
               = Some (Rejected (TypeError
                                   "Cannot read property 'emit' of undefined"))).
  { rewrite Hpr. apply lookup_snoc_length. }
  exists (length (promises w)), w',
    "Cannot read property 'emit' of undefined"%string.
  split; [exact He|]. split; [exact Hp|]. split; [exact Hj|].
  split; [exact Hlog|]. split.
  - rewrite (waiters_at_emit _ _ _ _ _ _ _ _ He), decide_True by done.
    pose proof (length_waiters_at w this (toString (jobId w))) as Hlen.
    rewrite (no_waiter_at_counter w _ Hwf eq_refl) in Hlen.
    destruct (waiters_at w this _); [done|simpl in Hlen; lia].
  - intros later w'' Hlater.
    by apply (run_keeps_settled later w' w'' _ _
                (wf_emit _ _ _ _ _ _ Hwf (reachable_exact _ _ Hrun) He) Hp).
Qed.

Lemma emit_without_socket_witness :
  let ops := [NewSdk "/api" default_authenticator;
              CreateStore {| job := None; data := VNull |}] in
  exists w p w' msg w'',
    run ops init = Some w
    /\ emit 0 "updateStats" [] w = Some (p, w')
    /\ run [SetupRedux 0 0 0; Dispatch 0 {| job := Some 1%Z; data := VNull |}] w'
       = Some w''
    /\ promises w'' !! p = Some (Rejected (TypeError msg))
    /\ jobId w'' = 2%Z.
Proof.
  intros ops. pose (w := default init (run ops init)).
  assert (Hrun : run ops init = Some w) by (vm_compute; reflexivity).
  destruct (emit_without_socket ops w 0 (sample_sdk default_authenticator)
              "updateStats" [] Hrun eq_refl eq_refl)
    as (p & w' & msg & He & _ & Hj & _ & _ & Hlater).
  pose (later := [SetupRedux 0 0 0;
                  Dispatch 0 {| job := Some 1%Z; data := VNull |}]).
  assert (He' : emit 0 "updateStats" [] w
                = Some (0%nat, default init (snd <$> emit 0 "updateStats" [] w)))
    by (vm_compute; reflexivity).
  pose proof He as He0. rewrite He' in He0. injection He0 as <- <-.
  assert (Hl : run later (default init (snd <$> emit 0 "updateStats" [] w))
               = Some (default init
                         (run later
                            (default init (snd <$> emit 0 "updateStats" [] w)))))
    by (vm_compute; reflexivity).
  eexists w, _, _, msg, _.
  split; [exact Hrun|]. split; [exact He|]. split; [exact Hl|].
  split; [exact (Hlater later _ Hl)|].
  vm_compute. reflexivity.
Defined.



(** X5: Each named socket operation is one call of [emit] under its own name:
    it takes the next identifier, registers its waiter and puts on the wire
    its name, the options object with the identifier, and its arguments in
    order; a filter left out of [listBookingsForUser] goes out as the empty
    object, and the operations without arguments send name and options
    only. *)
Theorem socket_operations_on_the_wire ops w this s sock
    laundryId userId from to filter options name args call :
  run ops init = Some w ->
  sdks w !! this = Some s -> socket s = Some sock ->
  filter <> VUndefined ->
  (name, args, call) ∈ socket_operations laundryId userId from to filter options ->
  exists p w',
    call this w = Some (p, w')
    /\ jobId w' = (jobId w + 1)%Z
    /\ log w'
       = log w ++ [Registered this (toString (jobId w)) p;
                   Sent sock (VStr name
                                :: VObj [("jobId"%string, VNum (jobId w))]
                                :: args)]
    /\ awaiting w' this (jobId w) p.
Proof.
  intros Hrun Hs Hsock Hfilter Hin. pose proof (wf_reachable _ _ Hrun) as Hwf.
  assert (Hemit : forall action args',
            exists p w',
              emit this action args' w = Some (p, w')
              /\ jobId w' = (jobId w + 1)%Z
              /\ log w'
                 = log w ++ [Registered this (toString (jobId w)) p;
                             Sent sock (VStr action
                                          :: VObj [("jobId"%string, VNum (jobId w))]
                                          :: args')]
              /\ awaiting w' this (jobId w) p).
  { intros action args'.
    destruct (emit_spec this action args' w s Hs) as (w' & He & Hj & _).
    rewrite (increment_exact _ (reachable_exact _ _ Hrun)) in Hj.
    destruct (emit_awaiting _ _ _ _ _ _ _ _ Hwf Hs Hsock He) as [Haw Hlog].
    by exists (length (promises w)), w'. }
  unfold socket_operations in Hin.
  repeat (apply elem_of_cons in Hin as [Hin|Hin];
          [injection Hin as -> -> ->; try apply Hemit|]).
  - unfold listBookingsForUser.
    replace (or_empty filter) with filter by (by destruct filter).
    apply Hemit.
  - by apply elem_of_nil in Hin.
Qed.

Lemma socket_operations_on_the_wire_witness :
  exists p w',
    listBookingsForUser 0 "l1" "u1" VUndefined (sample_process 2) = Some (p, w')
    /\ drop 5 (log w')
       = [Sent 0 [VStr "listBookingsForUser";
                  VObj [("jobId"%string, VNum 3)];
                  VStr "l1"; VStr "u1"; VObj []]].
Proof.
  assert (Hrun : run (sample_run 2) init = Some (sample_process 2))
    by (vm_compute; reflexivity).
  assert (Hs : sdks (sample_process 2) !! 0%nat = Some (sample_instance 2))
    by (vm_compute; reflexivity).
  destruct (socket_operations_on_the_wire (sample_run 2) (sample_process 2) 0
              (sample_instance 2) 0 "l1" "u1" VNull VNull (VObj []) VNull
              "listBookingsForUser" [VStr "l1"; VStr "u1"; VObj []]
              (fun this => listBookingsForUser this "l1" "u1" VUndefined)
              Hrun Hs eq_refl)
    as (p & w' & Hcall & _ & Hlog & _).
  - discriminate.
  - unfold socket_operations. do 2 apply list_elem_of_further.
    apply list_elem_of_here.
  - exists p, w'. split; [exact Hcall|]. rewrite Hlog. vm_compute. reflexivity.
Defined.

Lemma called_fire_all name args subs w q :
  q ∈ called (log w)
  \/ (exists i, i ∈ subs /\ OnceResolve q ∈ waiters_at w i name) ->
  q ∈ called (log (foldl (fire_at name args) w subs)).
Proof.
  revert w. induction subs as [|this subs IH]; intros w Hq.
  - destruct Hq as [?|(i & Hi & _)]; [done|by apply elem_of_nil in Hi].
  - cbn [foldl]. apply IH.
    destruct (fire_at_frame name args w this) as (_ & _ & _ & _ & Hlog).
    rewrite Hlog, called_app, called_calls, elem_of_app, elem_of_targets.
    destruct Hq as [Hq|(i & Hi & Hq)]; [by left; left|].
    destruct (decide (i = this)) as [->|Hne]; [by left; right|].
    right. exists i. apply elem_of_cons in Hi as [?|Hi]; [done|].
    split; [done|]. rewrite waiters_at_fire, decide_False; [done|].
    by intros [? _].
Qed.

Lemma step_accounted op w w' :
  wf w ->
  (forall p st, promises w !! p = Some st -> accounted w p st) ->
  step op w = Some w' ->
  forall p st, promises w' !! p = Some st -> accounted w' p st.
Proof.
  intros Hwf Hacc Hstep.
  (* what an operation that settles nothing and calls nothing keeps *)
  assert (Hquiet : ~ (exists store st, op = Dispatch store st) ->
            forall p st, promises w !! p = Some st ->
                         promises w' !! p = Some st ->
                         called (log w') = called (log w) ->
                         (jobId w <= jobId w')%Z ->
                         accounted w' p st).
  { intros Hop p st Hp Hp' Hcalled Hle. specialize (Hacc p st Hp).
    destruct st as [|v|e]; simpl in *.
    - destruct Hacc as (i & k & Haw & Hk). exists i, k. split; [|lia].
      apply (step_keeps_awaiting op w); try done.
      intros Hr. apply Hop. destruct op; try done. eauto.
    - by rewrite Hcalled.
    - done. }
  destruct op as [url auth|st0|this store sock|this action args|store st0];
    [simpl in Hstep..| |simpl in Hstep].
  - injection Hstep as <-. intros p st Hp.
    apply Hquiet; try done. by intros (? & ? & ?).
  - injection Hstep as <-. intros p st Hp.
    apply Hquiet; try done. by intros (? & ? & ?).
  - destruct (setupRedux_frame _ _ _ _ _ Hstep) as (Hj & Hpr & Hlog & _).
    intros p st Hp. apply Hquiet; try done.
    + by intros (? & ? & ?).
    + by rewrite <- Hpr.
    + by rewrite Hlog.
    + lia.
  - destruct (step_Emit _ _ _ _ _ Hstep) as (Hroom & p0 & He).
    destruct (emit_inv _ _ _ _ _ _ He) as (s & Hs & ->).
    destruct (emit_spec this action args w s Hs)
      as (w'' & He' & Hj & _ & _ & Hpr & Hlog).
    rewrite increment_exact in Hj by lia.
    rewrite He in He'. injection He' as <-.
    assert (Hcalled : called (log w') = called (log w)).
    { rewrite Hlog, called_app. destruct (socket s); simpl; by rewrite app_nil_r. }
    intros p st Hp.
    destruct (decide (p < length (promises w))%nat) as [Hlt|Hge].
    + apply Hquiet; try done.
      * by intros (? & ? & ?).
      * by rewrite Hpr, lookup_app_l in Hp.
      * lia.
    + rewrite Hpr in Hp. apply lookup_snoc_Some in Hp as [[Hlt _]|[-> <-]]; [lia|].
      destruct (socket s) as [sock|] eqn:Hsock; simpl.
      * exists this, (jobId w).
        destruct (emit_awaiting _ _ _ _ _ _ _ _ Hwf Hs Hsock He) as [Haw _].
        split; [done|]. pose proof (wf_counter w Hwf). lia.
      * eauto.
  - destruct (stores w !! store) as [σ|] eqn:Hσ;
      [|unfold dispatch in Hstep; by rewrite Hσ in Hstep].
    destruct (dispatch_spec store st0 w σ Hwf Hσ) as [_ Heq].
    rewrite Hstep in Heq. injection Heq as ->.
    destruct (job st0) as [k'|] eqn:Hjob; [|exact Hacc].
    set (w1 := set_stores _ w).
    destruct (fire_all_frame (toString k') [] (subscribers σ) w1)
      as (Hj & _ & _ & _ & _).
    intros q st Hq.
    destruct (promises w !! q) as [st1|] eqn:Hq1.
    2: { destruct (promises_fire_all_mono (toString k') [] (subscribers σ) w1 q)
           as [Heq|Heq]; rewrite Heq in Hq;
           change (promises w1) with (promises w) in Hq;
           by rewrite Hq1 in Hq. }
    specialize (Hacc q st1 Hq1).
    destruct st1 as [|v|e].
    + destruct Hacc as (i & k & [Hat Hp] & Hk).
      assert (Hwaiter : waiter w i (toString k) q).
      { unfold waiter. rewrite Hat. apply list_elem_of_here. }
      destruct (decide (i ∈ subscribers σ /\ k' = k)) as [[Hi ->]|Hmiss].
      * rewrite (promises_fire_all_hit _ _ _ w1 i) in Hq; [|done|exact Hwaiter].
        change (promises w1) with (promises w) in Hq. rewrite Hq1 in Hq.
        injection Hq as <-. split; [done|].
        apply called_fire_all. right. by exists i.
      * assert (Haw' : awaiting (foldl (fire_at (toString k') []) w1
                                   (subscribers σ)) i k q).
        { split.
          - rewrite waiters_at_fire_all, decide_False; [done|].
            intros [Hi ?%toString_inj]. apply Hmiss. by split.
          - rewrite promises_fire_all_miss; [done|].
            intros j Hj' Hq'.
            destruct (wf_place w Hwf i (toString k) q j (toString k')
                        Hwaiter Hq') as [-> ?%toString_inj].
            apply Hmiss. by split. }
        destruct Haw' as [Hat' Hp']. rewrite Hp' in Hq. injection Hq as <-.
        exists i, k. split; [by split|]. by rewrite Hj.
    + destruct Hacc as [-> Hc].
      destruct (promises_fire_all_mono (toString k') [] (subscribers σ) w1 q)
        as [Heq|Heq]; rewrite Heq in Hq;
        change (promises w1) with (promises w) in Hq;
        rewrite Hq1 in Hq; injection Hq as <-;
        (split; [done|]; apply called_fire_all; by left).
    + destruct (promises_fire_all_mono (toString k') [] (subscribers σ) w1 q)
        as [Heq|Heq]; rewrite Heq in Hq;
        change (promises w1) with (promises w) in Hq;
        rewrite Hq1 in Hq; by injection Hq as <-.
Qed.

(** X6: In every process the operations lead to, a promise that [emit]
    returned is in one of three states: pending, with its waiter registered
    under the identifier of its call, which is below the counter; fulfilled
    with undefined, its listener having been called; or rejected with the
    TypeError of the missing socket.  No promise is fulfilled with a value,
    and none is pending without its waiter. *)
Theorem promises_are_accounted_for ops w p st :
  run ops init = Some w ->
  promises w !! p = Some st ->
  accounted w p st.
Proof.
  intros Hrun. revert p st.
  assert (Hgen : forall ops w0 w, wf w0 ->
            (forall p st, promises w0 !! p = Some st -> accounted w0 p st) ->
            run ops w0 = Some w ->
            forall p st, promises w !! p = Some st -> accounted w p st).
  { clear. induction ops as [|op ops IH]; intros w0 w Hwf Hacc Hrun; simpl in Hrun.
    - by simplify_eq.
    - destruct (step op w0) as [w1|] eqn:Hstep; [|done]. simpl in Hrun.
      apply (IH w1 w); [by eapply wf_step| |done].
      by apply (step_accounted op w0). }
  apply (Hgen ops init w wf_init); [|done].
  intros p st Hp. simpl in Hp. by rewrite lookup_nil in Hp.
Qed.

Lemma promises_are_accounted_for_witness :
  let ops := sample_run 2 ++ [Dispatch 0 {| job := Some 2%Z; data := VNull |}] in
  exists w,
    run ops init = Some w
    /\ promises w = [Pending; Fulfilled VUndefined]
    /\ accounted w 0 Pending
    /\ accounted w 1 (Fulfilled VUndefined).
Proof.
  intros ops. pose (w := default init (run ops init)).
  assert (Hrun : run ops init = Some w) by (vm_compute; reflexivity).
  exists w. split; [exact Hrun|]. split; [vm_compute; reflexivity|].
  split.
  - apply (promises_are_accounted_for ops w 0 Pending Hrun).
    vm_compute; reflexivity.
  - apply (promises_are_accounted_for ops w 1 (Fulfilled VUndefined) Hrun).
    vm_compute; reflexivity.
Defined.

(** * Further properties of the HTTP side *)

Lemma postRequest_resolved sdk path d n a :
  authenticator sdk (auth_calls n) = Resolves a ->
  S.postRequest sdk path d n
  = (remote n (sent n) (built sdk POST path (or_null d) a),
     after_send (built sdk POST path (or_null d) a) (after_auth n)).
Proof.
  intros Ha. unfold S.postRequest, postRequest.
  by rewrite (_req_resolved _ _ _ _ _ a Ha), or_null_idem.
Qed.

Lemma putRequest_resolved sdk path d n a :
  authenticator sdk (auth_calls n) = Resolves a ->
  S.putRequest sdk path d n
  = (remote n (sent n) (built sdk PUT path (or_null d) a),
     after_send (built sdk PUT path (or_null d) a) (after_auth n)).
Proof.
  intros Ha. unfold S.putRequest, putRequest.
  by rewrite (_req_resolved _ _ _ _ _ a Ha), or_null_idem.
Qed.

Lemma getRequest_resolved sdk path n a :
  authenticator sdk (auth_calls n) = Resolves a ->
  S.getRequest sdk path n
  = (remote n (sent n) (built sdk GET path VNull a),
     after_send (built sdk GET path VNull a) (after_auth n)).
Proof.
  intros Ha. unfold S.getRequest, getRequest.
  by rewrite (_req_resolved _ _ _ _ _ a Ha).
Qed.

Lemma deleteRequest_resolved sdk path n a :
  authenticator sdk (auth_calls n) = Resolves a ->
  S.deleteRequest sdk path n
  = (remote n (sent n) (built sdk DELETE path VNull a),
     after_send (built sdk DELETE path VNull a) (after_auth n)).
Proof.
  intros Ha. unfold S.deleteRequest, deleteRequest.
  by rewrite (_req_resolved _ _ _ _ _ a Ha).
Qed.

(** X7: When the service fails the request with [e], every operation rejects
    with that same [e] after the one request it sent: nothing is retried,
    and the operations that would send a second request do not send it. *)
Theorem transport_failure_propagates sdk n a e :
  authenticator sdk (auth_calls n) = Resolves a ->
  (forall r, remote n (sent n) r = Rejects e) ->
  (forall m path d,
     fst (facade m sdk path d n) = Rejects e
     /\ length (sent (snd (facade m sdk path d n))) = S (length (sent n)))
  /\ (forall rp id,
        fst (ResourceSdk.get rp sdk id n) = Rejects e
        /\ length (sent (snd (ResourceSdk.get rp sdk id n)))
           = S (length (sent n)))
  /\ (forall rp id,
        fst (ResourceSdk.del rp sdk id n) = Rejects e
        /\ length (sent (snd (ResourceSdk.del rp sdk id n)))
           = S (length (sent n)))
  /\ (forall b,
        fst (UserSdk.startEmailVerification sdk b n) = Rejects e
        /\ length (sent (snd (UserSdk.startEmailVerification sdk b n)))
           = S (length (sent n)))
  /\ (forall b,
        fst (UserSdk.forgotPassword sdk b n) = Rejects e
        /\ length (sent (snd (UserSdk.forgotPassword sdk b n)))
           = S (length (sent n)))
  /\ (forall b,
        fst (UserSdkOps.signUpUser sdk b n) = Rejects e
        /\ length (sent (snd (UserSdkOps.signUpUser sdk b n)))
           = S (length (sent n)))
  /\ (forall email,
        fst (UserSdk.fromEmail sdk email n) = Rejects e
        /\ length (sent (snd (UserSdk.fromEmail sdk email n)))
           = S (length (sent n)))
  /\ (forall b,
        fst (UserSdkOps.createUser sdk b n) = Rejects e
        /\ length (sent (snd (UserSdkOps.createUser sdk b n)))
           = S (length (sent n)))
  /\ (forall id d,
        fst (UserSdkOps.resetPassword sdk id d n) = Rejects e
        /\ length (sent (snd (UserSdkOps.resetPassword sdk id d n)))
           = S (length (sent n)))
  /\ (forall id d,
        fst (MachineSdk.updateMachine sdk id d n) = Rejects e
        /\ length (sent (snd (MachineSdk.updateMachine sdk id d n)))
           = S (length (sent n)))
  /\ (forall id d,
        fst (MachineSdk.createBooking sdk id d n) = Rejects e
        /\ length (sent (snd (MachineSdk.createBooking sdk id d n)))
           = S (length (sent n)))
  /\ (forall id d,
        fst (LaundrySdk.updateLaundry sdk id d n) = Rejects e
        /\ length (sent (snd (LaundrySdk.updateLaundry sdk id d n)))
           = S (length (sent n)))
  /\ (forall id userId,
        fst (LaundrySdk.removeUserFromLaundry sdk id userId n) = Rejects e
        /\ length (sent (snd (LaundrySdk.removeUserFromLaundry sdk id userId n)))
           = S (length (sent n)))
  /\ (forall id d,
        fst (BookingSdk.updateBooking sdk id d n) = Rejects e
        /\ length (sent (snd (BookingSdk.updateBooking sdk id d n)))
           = S (length (sent n))).
Proof.
  intros Ha Hdown.
  assert (Hone : forall r : Request,
            length (sent n ++ [r]) = S (length (sent n))).
  { intros r. rewrite length_app. simpl. lia. }
  split_and!.
  - intros m path d. rewrite facade_eq, (_req_resolved _ _ _ _ _ a Ha).
    simpl. by rewrite Hdown, Hone.
  - intros rp id. unfold ResourceSdk.get, await.
    rewrite (getRequest_resolved _ _ _ a Ha), Hdown. simpl. by rewrite Hone.
  - intros rp id. unfold ResourceSdk.del, await.
    rewrite (deleteRequest_resolved _ _ _ a Ha), Hdown. simpl. by rewrite Hone.
  - intros b. unfold UserSdk.startEmailVerification, UserSdk.fromEmail, await.
    rewrite (getRequest_resolved _ _ _ a Ha), Hdown. simpl. by rewrite Hone.
  - intros b. unfold UserSdk.forgotPassword, UserSdk.fromEmail, await.
    rewrite (getRequest_resolved _ _ _ a Ha), Hdown. simpl. by rewrite Hone.
  - intros b. unfold UserSdkOps.signUpUser, UserSdkOps.createUser, await.
    rewrite (postRequest_resolved _ _ _ _ a Ha), Hdown. simpl. by rewrite Hone.
  - intros email. unfold UserSdk.fromEmail, await.
    rewrite (getRequest_resolved _ _ _ a Ha), Hdown. simpl. by rewrite Hone.
  - intros b. unfold UserSdkOps.createUser, await.
    rewrite (postRequest_resolved _ _ _ _ a Ha), Hdown. simpl. by rewrite Hone.
  - intros id d. unfold UserSdkOps.resetPassword.
    rewrite (postRequest_resolved _ _ _ _ a Ha), Hdown. simpl. by rewrite Hone.
  - intros id d. unfold MachineSdk.updateMachine.
    rewrite (putRequest_resolved _ _ _ _ a Ha), Hdown. simpl. by rewrite Hone.
  - intros id d. unfold MachineSdk.createBooking.
    rewrite (postRequest_resolved _ _ _ _ a Ha), Hdown. simpl. by rewrite Hone.
  - intros id d. unfold LaundrySdk.updateLaundry, await.
    rewrite (putRequest_resolved _ _ _ _ a Ha), Hdown. simpl. by rewrite Hone.
  - intros id userId. unfold LaundrySdk.removeUserFromLaundry.
    rewrite (deleteRequest_resolved _ _ _ a Ha), Hdown. simpl. by rewrite Hone.
  - intros id d. unfold BookingSdk.updateBooking, await.
    rewrite (putRequest_resolved _ _ _ _ a Ha), Hdown. simpl. by rewrite Hone.
Qed.

Lemma transport_failure_propagates_witness :
  let sdk := sample_sdk default_authenticator in
  let b := {| su_displayName := "Ann"; su_email := "a@b.c";
              su_password := "pw"; su_locale := None |} in
  fst (UserSdkOps.signUpUser sdk b (down (Error "503")))
    = Rejects (Error "503")
  /\ length (sent (snd (UserSdkOps.signUpUser sdk b (down (Error "503")))))
     = 1%nat.
Proof.
  intros sdk b.
  destruct (transport_failure_propagates sdk (down (Error "503"))
              unauthenticated (Error "503") eq_refl (fun _ => eq_refl))
    as (_ & _ & _ & _ & _ & H & _).
  exact (H b).
Defined.

(** X8: [signUpUser] creates the user and then asks for the verification of
    the email.  When the service returns no user it rejects with "Failed to
    create user" after that one request.  Otherwise the second request goes
    to the new user's id and carries the email and the locale, not the
    password, under the provider's next answer; the promise resolves to the
    created user, or rejects with the error of the second request, the user
    staying created. *)
Theorem signUpUser_steps sdk b n a1 a2 res :
  let r1 := built sdk POST "/users" (create_user_object b) a1 in
  let n1 := after_send r1 (after_auth n) in
  let r2 := built sdk POST
              ("/users/" +:+ template (get_prop "id" (body res))
               +:+ "/start-email-verification")
              (body_object {| email := su_email b; locale := su_locale b |})
              a2 in
  authenticator sdk (auth_calls n) = Resolves a1 ->
  remote n (sent n) r1 = Resolves res ->
  (truthy (body res) = false ->
   UserSdkOps.signUpUser sdk b n
   = (Rejects (Error "Failed to create user"), n1))
  /\ (truthy (body res) = true ->
      authenticator sdk (S (auth_calls n)) = Resolves a2 ->
      UserSdkOps.signUpUser sdk b n
      = (match remote n (sent n ++ [r1]) r2 with
         | Resolves _ => Resolves (body res)
         | Rejects e => Rejects e
         end,
         after_send r2 (after_auth n1)))
  /\ req_data r1 = Some (create_user_object b)
  /\ req_data r2
     = Some (body_object {| email := su_email b; locale := su_locale b |}).
Proof.
  intros r1 n1 r2 Ha1 Hres.
  assert (Hcreate : UserSdkOps.createUser sdk (create_user_object b) n
                    = (Resolves (body res), n1)).
  { unfold UserSdkOps.createUser, await.
    rewrite (postRequest_resolved _ _ _ _ a1 Ha1). simpl.
    fold r1. by rewrite Hres. }
  split_and!; try done.
  - intros Hfalsy. unfold UserSdkOps.signUpUser, await.
    by rewrite Hcreate, Hfalsy.
  - intros Htruthy Ha2. unfold UserSdkOps.signUpUser, await.
    rewrite Hcreate, Htruthy. simpl.
    unfold UserSdk._startEmailVerification, await.
    rewrite (postRequest_resolved sdk _ _ n1 a2 Ha2). simpl.
    fold r1 r2. by destruct (remote n (sent n ++ [r1]) r2).
Qed.

Lemma signUpUser_steps_witness :
  let sdk := sample_sdk default_authenticator in
  let b := {| su_displayName := "Ann"; su_email := "a@b.c";
              su_password := "pw"; su_locale := Some "en"%string |} in
  let created := VObj [("id"%string, VStr "u9")] in
  fst (UserSdkOps.signUpUser sdk b (answering created)) = Resolves created
  /\ (fun r => (req_url r, req_data r))
       <$> sent (snd (UserSdkOps.signUpUser sdk b (answering created)))
     = [("/api/users"%string, Some (create_user_object b));
        ("/api/users/u9/start-email-verification"%string,
         Some (VObj [("email"%string, VStr "a@b.c");
                     ("locale"%string, VStr "en")]))].
Proof.
  intros sdk b created.
  destruct (signUpUser_steps sdk b (answering created) unauthenticated
              unauthenticated {| status := 200; body := created |}
              eq_refl eq_refl) as (_ & Hok & _).
  rewrite (Hok eq_refl eq_refl). done.
Defined.

(** X9: [startEmailVerification] and [forgotPassword] on an email that one
    user has: after the lookup a second request goes to that user's id,
    under the provider's next answer, with the caller's body for the
    verification and with the locale alone for the password reset (the
    empty object when the locale is missing or empty); the promise resolves
    to nothing, or rejects with the error of the second request. *)
Theorem email_operations_on_a_found_user sdk b n a1 a2 res user :
  let lookup := built sdk GET ("/users?email=" +:+ encodeURIComponent (email b))
                  VNull a1 in
  let n1 := after_send lookup (after_auth n) in
  let id := template (get_prop "id" user) in
  let verify := built sdk POST ("/users/" +:+ id +:+ "/start-email-verification")
                  (body_object b) a2 in
  let reset := built sdk POST ("/users/" +:+ id +:+ "/start-password-reset")
                 (reset_object b) a2 in
  authenticator sdk (auth_calls n) = Resolves a1 ->
  remote n (sent n) lookup = Resolves res ->
  body res = VArr [user] -> truthy user = true ->
  authenticator sdk (S (auth_calls n)) = Resolves a2 ->
  UserSdk.startEmailVerification sdk b n
  = (match remote n (sent n ++ [lookup]) verify with
     | Resolves _ => Resolves tt
     | Rejects e => Rejects e
     end, after_send verify (after_auth n1))
  /\ UserSdk.forgotPassword sdk b n
     = (match remote n (sent n ++ [lookup]) reset with
        | Resolves _ => Resolves tt
        | Rejects e => Rejects e
        end, after_send reset (after_auth n1))
  /\ req_data verify = Some (body_object b)
  /\ req_data reset = Some (reset_object b).
Proof.
  intros lookup n1 id verify reset Ha1 Hres Hbody Huser Ha2.
  assert (Hfrom : UserSdk.fromEmail sdk (email b) n = (Resolves user, n1)).
  { unfold UserSdk.fromEmail, await.
    rewrite (getRequest_resolved _ _ _ a1 Ha1). fold lookup.
    rewrite Hres. simpl. by rewrite Hbody. }
  split_and!; try done.
  - unfold UserSdk.startEmailVerification, await. rewrite Hfrom, Huser. simpl.
    unfold UserSdk._startEmailVerification, await.
    rewrite (postRequest_resolved sdk _ _ n1 a2 Ha2). simpl.
    fold id verify lookup. by destruct (remote n (sent n ++ [lookup]) verify).
  - unfold UserSdk.forgotPassword, await. rewrite Hfrom, Huser. simpl.
    unfold UserSdk.startPasswordReset, await.
    rewrite (postRequest_resolved sdk _ _ n1 a2 Ha2). simpl.
    assert (Hobj : or_null (match locale b with
                            | Some l => if negb (String.eqb l "")
                                        then VObj [("locale"%string, VStr l)]
                                        else VObj []
                            | None => VObj []
                            end) = reset_object b).
    { unfold reset_object. destruct (locale b) as [l|]; [|done].
      by destruct (String.eqb l ""). }
    rewrite Hobj. fold id reset lookup.
    by destruct (remote n (sent n ++ [lookup]) reset).
Qed.

Lemma email_operations_on_a_found_user_witness :
  let sdk := sample_sdk rotating in
  let b := {| email := "a@b.c"; locale := Some ""%string |} in
  fst (UserSdk.forgotPassword sdk b (answering sample_users)) = Resolves tt
  /\ (fun r => (req_url r, req_header r, req_data r))
       <$> sent (snd (UserSdk.forgotPassword sdk b (answering sample_users)))
     = [("/api/users?email=a%40b.c"%string,
         [("Authorization"%string, "Bearer t0"%string)], None);
        ("/api/users/u1/start-password-reset"%string,
         [("Authorization"%string, "Bearer t1"%string)], Some (VObj []))].
Proof.
  intros sdk b.
  destruct (email_operations_on_a_found_user sdk b (answering sample_users)
              (bearer "t0") (bearer "t1")
              {| status := 200; body := sample_users |}
              (VObj [("id"%string, VStr "u1")])
              eq_refl eq_refl eq_refl eq_refl eq_refl) as (_ & Hreset & _).
  rewrite Hreset. done.
Defined.

(** X10: The update methods do not agree on what they resolve to: on the same
    answer of the service, [updateLaundry] and [updateBooking] resolve to
    the body of the response, while [updateMachine], [createBooking],
    [resetPassword] and [removeUserFromLaundry] resolve to the response
    itself.  Each of the six sends one request: a PUT to the resource for
    the three updates, a POST to [/machines/<id>/bookings] and to
    [/users/<id>/password-reset], a DELETE without a body to
    [/laundries/<id>/users/<userId>]. *)
Theorem update_results_differ sdk id userId d n a res :
  authenticator sdk (auth_calls n) = Resolves a ->
  (forall r, remote n (sent n) r = Resolves res) ->
  fst (LaundrySdk.updateLaundry sdk id d n) = Resolves (body res)
  /\ fst (BookingSdk.updateBooking sdk id d n) = Resolves (body res)
  /\ fst (MachineSdk.updateMachine sdk id d n) = Resolves res
  /\ fst (MachineSdk.createBooking sdk id d n) = Resolves res
  /\ fst (UserSdkOps.resetPassword sdk id d n) = Resolves res
  /\ fst (LaundrySdk.removeUserFromLaundry sdk id userId n) = Resolves res
  /\ sent (snd (MachineSdk.updateMachine sdk id d n))
     = sent n ++ [built sdk PUT ("/machines/" +:+ id) (or_null d) a]
  /\ sent (snd (LaundrySdk.updateLaundry sdk id d n))
     = sent n ++ [built sdk PUT ("/laundries/" +:+ id) (or_null d) a]
  /\ sent (snd (BookingSdk.updateBooking sdk id d n))
     = sent n ++ [built sdk PUT ("/bookings/" +:+ id) (or_null d) a]
  /\ sent (snd (MachineSdk.createBooking sdk id d n))
     = sent n ++ [built sdk POST ("/machines/" +:+ id +:+ "/bookings")
                    (or_null d) a]
  /\ sent (snd (UserSdkOps.resetPassword sdk id d n))
     = sent n ++ [built sdk POST ("/users/" +:+ id +:+ "/password-reset")
                    (or_null d) a]
  /\ sent (snd (LaundrySdk.removeUserFromLaundry sdk id userId n))
     = sent n ++ [built sdk DELETE
                    ("/laundries/" +:+ id +:+ "/users/" +:+ userId) VNull a].
Proof.
  intros Ha Hres.
  unfold LaundrySdk.updateLaundry, BookingSdk.updateBooking,
    MachineSdk.updateMachine, MachineSdk.createBooking,
    UserSdkOps.resetPassword, LaundrySdk.removeUserFromLaundry, await.
  rewrite !(putRequest_resolved _ _ _ _ a Ha),
    !(postRequest_resolved _ _ _ _ a Ha), (deleteRequest_resolved _ _ _ a Ha).
  simpl. by rewrite !Hres.
Qed.

Lemma update_results_differ_witness :
  let sdk := sample_sdk default_authenticator in
  let machine := VObj [("id"%string, VStr "m1"); ("broken"%string, VBool true)] in
  fst (MachineSdk.updateMachine sdk "m1" (VObj [("broken"%string, VBool true)])
         (answering machine))
    = Resolves {| status := 200; body := machine |}
  /\ fst (LaundrySdk.updateLaundry sdk "l1" (VObj []) (answering machine))
     = Resolves machine.
Proof.
  intros sdk machine.
  destruct (update_results_differ sdk "m1" "u1"
              (VObj [("broken"%string, VBool true)]) (answering machine)
              unauthenticated {| status := 200; body := machine |}
              eq_refl (fun _ => eq_refl)) as (_ & _ & Hm & _).
  destruct (update_results_differ sdk "l1" "u1" (VObj []) (answering machine)
              unauthenticated {| status := 200; body := machine |}
              eq_refl (fun _ => eq_refl)) as (Hl & _).
  exact (conj Hm Hl).
Defined.

(** ** The strings that go out *)

Section digits.
Implicit Types (n m : N) (c : ascii).

Lemma small_cases (P : N -> Prop) (b : nat) n :
  (n < N.of_nat b)%N ->
  (forall k, (k < b)%nat -> P (N.of_nat k)) -> P n.
Proof.
  intros Hn HP. rewrite <- (N2Nat.id n). apply HP. lia.
Qed.

Lemma index_hex_digit n :
  (n < 16)%N -> index_of (hex_digit n) "0123456789ABCDEF" = n.
Proof.
  intros Hn.
  apply (small_cases (fun n => index_of (hex_digit n) "0123456789ABCDEF" = n)
           16 n Hn).
  intros k Hk.
  do 16 (destruct k as [|k]; [vm_compute; reflexivity|]). lia.
Qed.

Lemma hex_digit_unreserved n : (n < 16)%N -> uri_unreserved (hex_digit n) = true.
Proof.
  intros Hn.
  apply (small_cases (fun n => uri_unreserved (hex_digit n) = true) 16 n Hn).
  intros k Hk.
  do 16 (destruct k as [|k]; [vm_compute; reflexivity|]). lia.
Qed.

Lemma index_b64_digit n :
  (n < 64)%N -> index_of (b64_digit n) b64_alphabet = n.
Proof.
  intros Hn.
  apply (small_cases (fun n => index_of (b64_digit n) b64_alphabet = n) 64 n Hn).
  intros k Hk.
  do 64 (destruct k as [|k]; [vm_compute; reflexivity|]). lia.
Qed.

Lemma hex_digit_inj n m :
  (n < 16)%N -> (m < 16)%N -> hex_digit n = hex_digit m -> n = m.
Proof.
  intros Hn Hm Heq.
  by rewrite <- (index_hex_digit n Hn), <- (index_hex_digit m Hm), Heq.
Qed.

Lemma b64_digit_inj n m :
  (n < 64)%N -> (m < 64)%N -> b64_digit n = b64_digit m -> n = m.
Proof.
  intros Hn Hm Heq.
  by rewrite <- (index_b64_digit n Hn), <- (index_b64_digit m Hm), Heq.
Qed.

Lemma b64_digit_not_pad n : (n < 64)%N -> b64_digit n <> "="%char.
Proof.
  intros Hn Heq. pose proof (index_b64_digit n Hn) as Hi.
  rewrite Heq in Hi. vm_compute in Hi. subst n. lia.
Qed.

Lemma N_of_ascii_byte c : (N_of_ascii c < 256)%N.
Proof. apply N_ascii_bounded. Qed.

Lemma N_of_ascii_inj c c' : N_of_ascii c = N_of_ascii c' -> c = c'.
Proof.
  intros Heq. by rewrite <- (ascii_N_embedding c), <- (ascii_N_embedding c'), Heq.
Qed.
End digits.

(** [n / d] and [n mod d] as a quotient and a remainder that [lia] can
    work with. *)
Ltac euclid n d :=
  let q := fresh "q" in
  let r := fresh "r" in
  pose proof (N.div_mod' n d);
  pose proof (N.mod_lt n d ltac:(lia));
  set (q := (n / d)%N) in *; set (r := (n mod d)%N) in *;
  clearbody q r.

Lemma encodeURIComponent_inj s1 s2 :
  encodeURIComponent s1 = encodeURIComponent s2 -> s1 = s2.
Proof.
  revert s2. induction s1 as [|c1 r1 IH]; intros [|c2 r2] Heq; simpl in Heq.
  - done.
  - by destruct (uri_unreserved c2).
  - by destruct (uri_unreserved c1).
  - pose proof (N_of_ascii_byte c1). pose proof (N_of_ascii_byte c2).
    destruct (uri_unreserved c1) eqn:H1, (uri_unreserved c2) eqn:H2.
    + injection Heq as Hc Hr. subst c2. f_equal. by apply IH.
    + injection Heq as Hc Hr. subst c1. vm_compute in H1. discriminate H1.
    + injection Heq as Hc Hr. subst c2. vm_compute in H2. discriminate H2.
    + injection Heq as Hhi Hlo Hr.
      f_equal; [|by apply IH]. apply N_of_ascii_inj.
      euclid (N_of_ascii c1) 16%N. euclid (N_of_ascii c2) 16%N.
      apply hex_digit_inj in Hhi; [|lia..].
      apply hex_digit_inj in Hlo; [|lia..].
      lia.
Qed.

Lemma encodeURIComponent_safe s :
  Forall uri_safe (list_ascii_of_string (encodeURIComponent s)).
Proof.
  induction s as [|c r IH]; simpl; [constructor|].
  pose proof (N_of_ascii_byte c).
  destruct (uri_unreserved c) eqn:Hc; simpl.
  - constructor; [by left|done].
  - constructor; [by right|].
    constructor.
    { left. apply hex_digit_unreserved. euclid (N_of_ascii c) 16%N. lia. }
    constructor; [|done].
    left. apply hex_digit_unreserved. by apply N.mod_lt.
Qed.

Lemma fromEmail_sent sdk em n a :
  authenticator sdk (auth_calls n) = Resolves a ->
  sent (snd (UserSdk.fromEmail sdk em n))
  = sent n ++ [built sdk GET ("/users?email=" +:+ encodeURIComponent em) VNull a].
Proof.
  intros Ha. unfold UserSdk.fromEmail, await.
  rewrite (getRequest_resolved _ _ _ a Ha).
  destruct (remote n (sent n) _) as [res|e]; [|done]. simpl.
  destruct (negb (truthy (body res))); [done|].
  by destruct (strict_neq (get_length (body res)) 1).
Qed.

(** X11: The lookup by email sends the address as one query parameter, encoded:
    what follows [email=] in the URL holds unreserved characters and percent
    signs only, so no address can add a parameter, a fragment or a path
    segment, and two different addresses are never looked up under the same
    URL. *)
Theorem lookup_url_is_faithful sdk n a em :
  authenticator sdk (auth_calls n) = Resolves a ->
  (exists r, sent (snd (UserSdk.fromEmail sdk em n)) = sent n ++ [r]
             /\ req_method r = GET
             /\ req_url r
                = baseUrl sdk +:+ "/users?email=" +:+ encodeURIComponent em)
  /\ Forall uri_safe (list_ascii_of_string (encodeURIComponent em))
  /\ Forall (fun c => ~ uri_safe c) (list_ascii_of_string "&=#?/ +")
  /\ (forall em',
        sent (snd (UserSdk.fromEmail sdk em' n))
        = sent (snd (UserSdk.fromEmail sdk em n)) -> em' = em).
Proof.
  intros Ha. split_and!.
  - eexists. split; [by apply fromEmail_sent|done].
  - apply encodeURIComponent_safe.
  - repeat constructor; by intros [?|?].
  - intros em'. rewrite !(fromEmail_sent _ _ _ a Ha).
    intros Heq%app_inv_head. injection Heq as Heq.
    apply (inj (String.app (baseUrl sdk))) in Heq.
    apply (inj (String.app "/users?email=")) in Heq.
    by apply encodeURIComponent_inj.
Qed.

Lemma lookup_url_is_faithful_witness :
  exists r,
    sent (snd (UserSdk.fromEmail (sample_sdk default_authenticator)
                 "a&admin=1@b.c" (answering VNull))) = [r]
    /\ req_url r = "/api/users?email=a%26admin%3D1%40b.c"%string.
Proof.
  destruct (lookup_url_is_faithful (sample_sdk default_authenticator)
              (answering VNull) unauthenticated "a&admin=1@b.c" eq_refl)
    as ((r & Hr & _ & Hurl) & _).
  exists r. split; [exact Hr|]. rewrite Hurl. reflexivity.
Defined.

Lemma list_ind3 {A} (P : list A -> Prop) :
  P [] -> (forall a, P [a]) -> (forall a b, P [a; b]) ->
  (forall a b c l, P l -> P (a :: b :: c :: l)) ->
  forall l, P l.
Proof.
  intros H0 H1 H2 H3.
  assert (H : forall l, P l /\ (forall a, P (a :: l))
                        /\ (forall a b, P (a :: b :: l))).
  { induction l as [|x l (IH0 & IH1 & IH2)]; [by split_and!|].
    split_and!; [apply IH1|intros a; apply IH2|]. intros a b. by apply H3. }
  intros l. apply H.
Qed.

Ltac b64_digits :=
  repeat match goal with
    | H : "="%char = b64_digit _ |- _ =>
        symmetry in H; apply b64_digit_not_pad in H; [done|lia]
    | H : b64_digit _ = "="%char |- _ =>
        apply b64_digit_not_pad in H; [done|lia]
    | H : b64_digit _ = b64_digit _ |- _ =>
        apply b64_digit_inj in H; [|lia..]
    end.

Lemma b64_groups_inj l1 l2 :
  Forall (fun n => (n < 256)%N) l1 -> Forall (fun n => (n < 256)%N) l2 ->
  b64_groups l1 = b64_groups l2 -> l1 = l2.
Proof.
  revert l2. induction l1 as [|a|a b|a b c l1 IH] using list_ind3;
    intros l2 Hb1 Hb2 Heq;
    destruct l2 as [|a' [|b' [|c' l2]]]; try discriminate Heq; try done;
    repeat match goal with
      | H : Forall _ (_ :: _) |- _ => apply Forall_cons in H as [? H]
      end;
    cbn [b64_groups] in Heq.
  - euclid a 4%N. euclid a' 4%N. inversion Heq. b64_digits. f_equal. lia.
  - euclid a 4%N. euclid a' 4%N. euclid b' 16%N. inversion Heq. b64_digits.
  - euclid a 4%N. euclid a' 4%N. euclid b' 16%N. euclid c' 64%N.
    inversion Heq. b64_digits.
  - euclid a 4%N. euclid a' 4%N. euclid b 16%N. inversion Heq. b64_digits.
  - euclid a 4%N. euclid a' 4%N. euclid b 16%N. euclid b' 16%N.
    inversion Heq. b64_digits. f_equal; [lia|f_equal; lia].
  - euclid a 4%N. euclid a' 4%N. euclid b 16%N. euclid b' 16%N.
    euclid c' 64%N. inversion Heq. b64_digits.
  - euclid a 4%N. euclid a' 4%N. euclid b 16%N. euclid c 64%N.
    inversion Heq. b64_digits.
  - euclid a 4%N. euclid a' 4%N. euclid b 16%N. euclid b' 16%N.
    euclid c 64%N. inversion Heq. b64_digits.
  - euclid a 4%N. euclid a' 4%N. euclid b 16%N. euclid b' 16%N.
    euclid c 64%N. euclid c' 64%N.
    injection Heq as Hd1 Hd2 Hd3 Hd4 Hrest. b64_digits.
    rewrite (IH l2); [|done|done|done].
    f_equal; [lia|f_equal; [lia|f_equal; lia]].
Qed.

Lemma base64_inj s1 s2 : base64 s1 = base64 s2 -> s1 = s2.
Proof.
  unfold base64. intros Heq%b64_groups_inj.
  - rewrite <- (string_of_list_ascii_of_string s1),
      <- (string_of_list_ascii_of_string s2).
    f_equal. revert Heq. generalize (list_ascii_of_string s2).
    induction (list_ascii_of_string s1) as [|c l IH]; intros [|c' l'] Heq;
      try done.
    injection Heq as Hc Hl. f_equal; [by apply N_of_ascii_inj|by apply IH].
  - apply Forall_fmap, Forall_forall. intros c _. apply N_of_ascii_byte.
  - apply Forall_fmap, Forall_forall. intros c _. apply N_of_ascii_byte.
Qed.

(** X12: The [Basic] header tells exactly the string [username:password]: two
    credentials get the same header only when those strings agree.  The
    colon is not escaped, so a colon moved from the end of the username to
    the front of the password changes nothing in the request. *)
Theorem basic_header_is_faithful username password username' password' req :
  authorize (basic username password) req
  = authorize (basic username' password') req
  <-> username +:+ ":" +:+ password = username' +:+ ":" +:+ password'.
Proof.
  split.
  - unfold authorize, req_set. intros Heq. injection Heq as Heq.
    simpl in Heq. by apply base64_inj.
  - unfold authorize. by intros ->.
Qed.

Lemma basic_header_is_faithful_witness :
  authorize (basic "a:b" "c") (request GET "/api/users/u1")
  = authorize (basic "a" "b:c") (request GET "/api/users/u1").
Proof.
  by apply (proj2 (basic_header_is_faithful "a:b" "c" "a" "b:c"
                     (request GET "/api/users/u1"))).
Defined.
